(** * Multi-threadPi: the task queue, the result table and the worker pool

    A model of [CS3100_Assn5/main.cpp].  The program loads a FIFO queue with
    one task per digit index, starts one worker thread per hardware thread,
    lets every worker drain the queue and store the computed digits in a
    hash table, joins the workers and prints the table in index order.

    The containers are modelled as the code has them: [std::queue<Task>] as a
    list whose head is the front, [std::unordered_map<int, unsigned int>] as
    a finite map from [Z] to [Z], [std::mutex] by the thread that owns it.
    The worker lambda is modelled statement by statement, as a step function
    on a world shared by all threads; an interleaving of the threads is a
    list of thread numbers.  Integers are in [Z], with the conversions
    between [int] and [unsigned int] written out.

    The digit computation ([computePiDigit] and its helpers) works in double
    precision and is a parameter of the development.  [struct piDigitEntry],
    the hexadecimal functions [s], [powneg] and [piDigitHex], the local
    [pieMap] of [main] and the argument [which] of the lambda are not used
    by the program and are left out. *)

From Stdlib Require Import Ascii Znumtheory Zpow_facts QArith.
From stdpp Require Import base numbers list strings pretty gmap.

Local Open Scope Z_scope.

(** ** Machine integers *)

(** Conversion to [int] (32 bits, two's complement). *)
Definition to_int (z : Z) : Z := (z + 2 ^ 31) `mod` 2 ^ 32 - 2 ^ 31.

(** Conversion to [unsigned int] (32 bits). *)
Definition to_unsigned (z : Z) : Z := z `mod` 2 ^ 32.

(** ** Output stream *)

Definition newline : string := String "010"%char EmptyString.

(** [std::cout << x] for a string and for an [int]. *)
Definition put_string (s : string) (out : string) : string := out +:+ s.
Definition put_int (n : Z) (out : string) : string := out +:+ pretty n.

(** ** Tasks *)

Record Task := { id : Z }.

(** ** The task queue, [class TaskList] *)

Record TaskList := {
  piQueue : list Task;       (* front of the queue first *)
  queueMutex : option nat    (* the thread that holds the mutex, if any *)
}.

Module TaskList.

Definition empty : TaskList := {| piQueue := []; queueMutex := None |}.

(** [piQueue.push(task)] appends at the back. *)
Definition push (task : Task) (q : TaskList) : TaskList :=
  {| piQueue := piQueue q ++ [task]; queueMutex := queueMutex q |}.

(** [queueMutex.lock()] by thread [tid]: [None] while another thread holds
    the mutex (the caller waits). *)
Definition lock (tid : nat) (q : TaskList) : option TaskList :=
  match queueMutex q with
  | None => Some {| piQueue := piQueue q; queueMutex := Some tid |}
  | Some _ => None
  end.

(** [queueMutex.unlock()] by thread [tid]: undefined ([None]) unless [tid]
    holds the mutex. *)
Definition unlock (tid : nat) (q : TaskList) : option TaskList :=
  match queueMutex q with
  | Some owner =>
      if decide (owner = tid)
      then Some {| piQueue := piQueue q; queueMutex := None |}
      else None
  | None => None
  end.

Definition isEmpty (q : TaskList) : bool :=
  match piQueue q with
  | [] => true
  | _ :: _ => false
  end.

(** [getPieDigit] evaluates [piQueue.front().id] and flows off the end of a
    function that returns [int]: its behaviour is undefined for every
    queue.  It is never called. *)
Definition getPieDigit (q : TaskList) : option Z := None.

(** [piQueue.front()]: undefined ([None]) on an empty queue. *)
Definition getTask (q : TaskList) : option Task :=
  match piQueue q with
  | [] => None
  | task :: _ => Some task
  end.

(** [piQueue.pop()]: undefined ([None]) on an empty queue. *)
Definition pop (q : TaskList) : option TaskList :=
  match piQueue q with
  | [] => None
  | _ :: rest => Some {| piQueue := rest; queueMutex := queueMutex q |}
  end.

End TaskList.

(** ** The result table, [class PieTable] *)

Record PieTable := {
  hashMutex : option nat;
  pieMap : gmap Z Z          (* digit index to stored [unsigned int] *)
}.

Module PieTable.

Definition empty : PieTable := {| hashMutex := None; pieMap := ∅ |}.

Definition lock (tid : nat) (t : PieTable) : option PieTable :=
  match hashMutex t with
  | None => Some {| hashMutex := Some tid; pieMap := pieMap t |}
  | Some _ => None
  end.

Definition unlock (tid : nat) (t : PieTable) : option PieTable :=
  match hashMutex t with
  | Some owner =>
      if decide (owner = tid)
      then Some {| hashMutex := None; pieMap := pieMap t |}
      else None
  | None => None
  end.

(** [pieMap.insert({key, value})]: [std::unordered_map::insert] adds the
    pair only when the map has no element with that key. *)
Definition insertValue (key value : Z) (t : PieTable) : PieTable :=
  match pieMap t !! key with
  | Some _ => t
  | None => {| hashMutex := hashMutex t; pieMap := <[key := value]> (pieMap t) |}
  end.

(** [return pieMap[index]]: [operator[]] first adds [index] with a
    value-initialised ([0]) element when the key is missing, then the
    element is returned, converted to [int].  The result is the returned
    value paired with the table after the call. *)
Definition get (index : Z) (t : PieTable) : Z * PieTable :=
  match pieMap t !! index with
  | Some value => (to_int value, t)
  | None =>
      (to_int 0, {| hashMutex := hashMutex t; pieMap := <[index := 0]> (pieMap t) |})
  end.

End PieTable.

(** ** Worker threads *)

(** The statement a worker thread executes next, with the locals of
    [threadFunction] that are live at that point. *)
Inductive Pc :=
  | AtLoopTest                          (* while (!taskList.isEmpty()) *)
  | AtProgress                          (* cout.flush(); cout << "." *)
  | AtQueueLock                         (* taskList.lock() *)
  | AtGetTask                           (* Task taskTemp = taskList.getTask() *)
  | AtPop (taskTemp : Task)             (* taskList.pop() *)
  | AtQueueUnlock (taskTemp : Task)     (* taskList.unlock() *)
  | AtCompute (taskTemp : Task)         (* pieIndex = ...; pieNumber = ... *)
  | AtTableLock (pieIndex pieNumber : Z)  (* pieTable.lock() *)
  | AtInsert (pieIndex pieNumber : Z)   (* pieTable.insertValue(...) *)
  | AtTableUnlock                       (* pieTable.unlock() *)
  | Returned.                           (* the loop test failed *)

(** Everything the threads of [main] share, and the threads themselves:
    thread [i] is the one created by [std::thread(threadFunction, i)]. *)
Record World := {
  taskList : TaskList;
  pieTable : PieTable;
  cout : string;
  threads : list Pc
}.

(** The outcome of letting one thread execute its next statement. *)
Inductive Step :=
  | Next (w : World)
  | Stuck             (* waiting for a mutex, returned, or no such thread *)
  | Undefined.        (* the statement has undefined behaviour *)

Definition goto (i : nat) (pc : Pc) (q : TaskList) (t : PieTable)
    (out : string) (w : World) : Step :=
  Next {| taskList := q; pieTable := t; cout := out;
          threads := <[i := pc]> (threads w) |}.

Definition joined (w : World) : bool :=
  forallb (λ pc, match pc with Returned => true | _ => false end) (threads w).

(** ** [main] up to the creation of the threads *)

(** [for (int i = 1; i < numDigitsPie; i++) taskList.push(Task{i})]. *)
Definition load (numDigitsPie : Z) : TaskList :=
  fold_left (λ q i, TaskList.push {| id := i |} q)
            (seqZ 1 (numDigitsPie - 1)) TaskList.empty.

(** The world in which the threads start: the queue loaded, the table
    empty, the two header lines printed, every thread before its first loop
    test (a thread that runs while [main] still creates the others is a
    thread that is scheduled first).  [hc] is the value returned by
    [std::thread::hardware_concurrency()], an [unsigned int]; 0 is what the
    library returns when the value is not computable.
    [new std::thread[numThreads]] throws for a negative [numThreads]
    ([None]). *)
Definition launch (numDigitsPie hc : Z) : option World :=
  let numThreads := to_int hc in
  let out :=
    put_string (" Digits" +:+ newline)
      (put_int numDigitsPie
         (put_string (" threads " +:+ newline)
            (put_int numThreads
               (put_string "Computing pi with " EmptyString)))) in
  if decide (numThreads < 0) then None
  else Some {| taskList := load numDigitsPie;
               pieTable := PieTable.empty;
               cout := out;
               threads := replicate (Z.to_nat numThreads) AtLoopTest |}.

(** ** [main] after the join *)

(** [for (int i = 1; i < numDigitsPie; i++) std::cout << pieTable.get(i)],
    over the list of the indices. *)
Fixpoint print_digits (indices : list Z) (t : PieTable) (out : string)
    : PieTable * string :=
  match indices with
  | [] => (t, out)
  | i :: rest =>
      let '(value, t') := PieTable.get i t in
      print_digits rest t' (put_int value out)
  end.

Definition render (numDigitsPie : Z) (t : PieTable) (out : string)
    : PieTable * string :=
  let '(t', out') :=
    print_digits (seqZ 1 (numDigitsPie - 1)) t
                 (put_string (newline +:+ "3.") out) in
  (t', put_string newline out').

(** ** The integer functions of the digit computation

    [inv_mod], [pow_mod], [is_prime] and [next_prime] work on [int]s; the
    macro [mul_mod] multiplies in [long long].  An evaluation returns a
    value, has undefined behaviour (a division by zero, an overflow of a
    signed operation, the cast of a NaN), or, for the loops, is cut short
    by the fuel that bounds the number of iterations. *)

Inductive Eval (A : Type) : Type :=
  | Returns (a : A)
  | Faults          (* undefined behaviour *)
  | Unfinished.     (* the loop has not ended when the fuel is used up *)
Arguments Returns {A} a.
Arguments Faults {A}.
Arguments Unfinished {A}.

#[global] Instance Eval_bind : MBind Eval := λ A B f x,
  match x with
  | Returns a => f a
  | Faults => Faults
  | Unfinished => Unfinished
  end.

Definition int_min : Z := - 2 ^ 31.
Definition int_max : Z := 2 ^ 31 - 1.

(** The value of an [int] operation whose exact result is [z]. *)
Definition int_of (z : Z) : Eval Z :=
  if decide (int_min ≤ z ≤ int_max) then Returns z else Faults.

(** [a / b] and [a % b] on [int]s: truncation towards zero, undefined for
    a zero divisor and when the quotient does not fit. *)
Definition int_quot (a b : Z) : Eval Z :=
  if decide (b = 0) then Faults else int_of (Z.quot a b).

Definition int_rem (a b : Z) : Eval Z :=
  if decide (b = 0) then Faults
  else _ ← int_of (Z.quot a b); Returns (Z.rem a b).

(** [#define mul_mod(a,b,m) (((long long) (a) * (long long) (b)) % (m))]. *)
Definition mul_mod (a b m : Z) : Eval Z :=
  if decide (- 2 ^ 63 ≤ a * b < 2 ^ 63) then
    if decide (m = 0) then Faults else Returns (Z.rem (a * b) m)
  else Faults.

(** The [do ... while (u != 0)] of [inv_mod]; the result is [a] when the
    loop is left. *)
Fixpoint inv_mod_loop (fuel : nat) (u v c a : Z) : Eval Z :=
  match fuel with
  | O => Unfinished
  | S fuel' =>
      q ← int_quot v u;
      qc ← int_of (q * c);
      c' ← int_of (a - qc);
      let a' := c in
      qu ← int_of (q * u);
      u' ← int_of (v - qu);
      let v' := u in
      if decide (u' = 0) then Returns a'
      else inv_mod_loop fuel' u' v' c' a'
  end.

Definition inv_mod (fuel : nat) (x y : Z) : Eval Z :=
  a ← inv_mod_loop fuel x y 1 0;
  a ← int_rem a y;
  if decide (a < 0) then int_of (y + a) else Returns a.

(** The [while (1)] of [pow_mod], with [b & 1] and [b >> 1] on the two's
    complement representation. *)
Fixpoint pow_mod_loop (fuel : nat) (r aa b m : Z) : Eval Z :=
  match fuel with
  | O => Unfinished
  | S fuel' =>
      r' ← (if decide (Z.land b 1 = 0) then Returns r else mul_mod r aa m);
      let b' := Z.shiftr b 1 in
      if decide (b' = 0) then Returns r'
      else aa' ← mul_mod aa aa m; pow_mod_loop fuel' r' aa' b' m
  end.

Definition pow_mod (fuel : nat) (a b m : Z) : Eval Z :=
  pow_mod_loop fuel 1 a b m.

(** [is_prime] computes [r = (int)(sqrt(n))] in double precision.  The
    function that gives this value for the non-negative [int]s is a
    parameter, [int_sqrt]; [is_int_sqrt] says that it is the integer square
    root, which is what a correctly rounded [sqrt] gives on this range. *)
Definition is_int_sqrt (int_sqrt : Z → Z) : Prop :=
  ∀ n, 0 ≤ n →
       0 ≤ int_sqrt n
       ∧ int_sqrt n * int_sqrt n ≤ n < (int_sqrt n + 1) * (int_sqrt n + 1).

(** [for (i = 3; i <= r; i += 2) if ((n % i) == 0) return 0; return 1]. *)
Fixpoint is_prime_loop (fuel : nat) (n i r : Z) : Eval Z :=
  if decide (i ≤ r) then
    match fuel with
    | O => Unfinished
    | S fuel' =>
        if decide (Z.rem n i = 0) then Returns 0
        else i' ← int_of (i + 2); is_prime_loop fuel' n i' r
    end
  else Returns 1.

(** For a negative odd [n] the square root is a NaN and its cast to [int]
    is undefined.  The loop runs at most [r] times. *)
Definition is_prime (int_sqrt : Z → Z) (n : Z) : Eval Z :=
  if decide (Z.rem n 2 = 0) then Returns 0
  else if decide (n < 0) then Faults
  else let r := int_sqrt n in is_prime_loop (Z.to_nat r) n 3 r.

(** [do { n++; } while (!is_prime(n)); return n]. *)
Fixpoint next_prime (int_sqrt : Z → Z) (fuel : nat) (n : Z) : Eval Z :=
  match fuel with
  | O => Unfinished
  | S fuel' =>
      n' ← int_of (n + 1);
      p ← is_prime int_sqrt n';
      if decide (p = 0) then next_prime int_sqrt fuel' n' else Returns n'
  end.

(** ** The digit computation, [computePiDigit]

    The function works on [int]s, except for [N], [vmax], the running
    [sum] and the result, which go through [double]s: [std::log],
    [std::fmod], sums, products, quotients and casts.  These operations are
    the fields of [DoubleOps]; the integer statements are those of the
    source, each with its overflow check. *)

Record DoubleOps := {
  double : Type;
  d_of_int : Z → double;               (* the conversion of an [int] *)
  d_add : double → double → double;
  d_mul : double → double → double;
  d_div : double → double → double;
  d_log : double → double;             (* [std::log] *)
  d_fmod : double → double → double;   (* [std::fmod] *)
  d_to_int : double → Eval Z;          (* [(int) x] *)
  d_to_unsigned : double → Eval Z      (* [static_cast<unsigned int>(x)] *)
}.

Module Digit.
Section Computation.

Variable F : DoubleOps.
Variable int_sqrt : Z → Z.

(** [fuel] bounds the iterations of each loop. *)
Variable fuel : nat.

(** [do { t = t / a; v--; } while ((t % a) == 0)] for [dv = -1], and the
    loop with [v++] for [dv = 1]; the result is [(t, v)]. *)
Fixpoint divide_out (n : nat) (a dv t v : Z) : Eval (Z * Z) :=
  match n with
  | O => Unfinished
  | S n' =>
      t' ← int_quot t a;
      v' ← int_of (v + dv);
      r ← int_rem t' a;
      if decide (r = 0) then divide_out n' a dv t' v' else Returns (t', v')
  end.

(** [for (i = 0; i < vmax; i++) av = av * a]. *)
Fixpoint power_loop (n : nat) (a vmax i av : Z) : Eval Z :=
  if decide (i < vmax) then
    match n with
    | O => Unfinished
    | S n' =>
        av' ← int_of (av * a);
        i' ← int_of (i + 1);
        power_loop n' a vmax i' av'
    end
  else Returns av.

(** [for (i = v; i < vmax; i++) t = mul_mod(t, a, av)]. *)
Fixpoint scale_loop (n : nat) (a av vmax i t : Z) : Eval Z :=
  if decide (i < vmax) then
    match n with
    | O => Unfinished
    | S n' =>
        t' ← mul_mod t a av;
        i' ← int_of (i + 1);
        scale_loop n' a av vmax i' t'
    end
  else Returns t.

(** [for (k = 1; k <= N; k++) { ... }]; the result is [s]. *)
Fixpoint term_loop (n : nat) (N a av vmax k num den v kq kq2 s : Z)
    : Eval Z :=
  if decide (k ≤ N) then
    match n with
    | O => Unfinished
    | S n' =>
        let t := k in
        '(t, v, kq) ←
          (if decide (a ≤ kq) then
             '(t', v') ← divide_out fuel a (-1) t v;
             Returns (t', v', 0)
           else Returns (t, v, kq));
        kq ← int_of (kq + 1);
        num ← mul_mod num t av;
        k2 ← int_of (2 * k);
        t ← int_of (k2 - 1);
        '(t, v, kq2) ←
          (if decide (a ≤ kq2) then
             '(t', v') ←
               (if decide (kq2 = a) then divide_out fuel a 1 t v
                else Returns (t, v));
             kq2' ← int_of (kq2 - a);
             Returns (t', v', kq2')
           else Returns (t, v, kq2));
        den ← mul_mod den t av;
        kq2 ← int_of (kq2 + 2);
        s ←
          (if decide (0 < v) then
             t ← inv_mod fuel den av;
             t ← mul_mod t num av;
             t ← mul_mod t k av;
             t ← scale_loop fuel a av vmax v t;
             s' ← int_of (s + t);
             if decide (av ≤ s') then int_of (s' - av) else Returns s'
           else Returns s);
        k' ← int_of (k + 1);
        term_loop n' N a av vmax k' num den v kq kq2 s
    end
  else Returns s.

(** [for (a = 3; a <= (2 * N); a = next_prime(a)) { ... }]; the result is
    [sum]. *)
Fixpoint prime_loop (m : nat) (n N a : Z) (sum : double F)
    : Eval (double F) :=
  twoN ← int_of (2 * N);
  if decide (a ≤ twoN) then
    match m with
    | O => Unfinished
    | S m' =>
        twoN ← int_of (2 * N);
        vmax ← d_to_int F (d_div F (d_log F (d_of_int F twoN))
                                   (d_log F (d_of_int F a)));
        av ← power_loop fuel a vmax 0 1;
        s ← term_loop fuel N a av vmax 1 1 1 0 1 1 0;
        n1 ← int_of (n - 1);
        t ← pow_mod fuel 10 n1 av;
        s ← mul_mod s t av;
        let sum' :=
          d_fmod F (d_add F sum (d_div F (d_of_int F s) (d_of_int F av)))
                 (d_of_int F 1) in
        a' ← next_prime int_sqrt fuel a;
        prime_loop m' n N a' sum'
    end
  else Returns sum.

(** [computePiDigit]: the literals [0], [1.0], [1e9] and [100000000] are
    the [double]s of these integers. *)
Definition computePiDigit (n : Z) : Eval Z :=
  let sum := d_of_int F 0 in
  m ← int_of (n + 20);
  N ← d_to_int F (d_div F (d_mul F (d_of_int F m) (d_log F (d_of_int F 10)))
                          (d_log F (d_of_int F 2)));
  sum ← prime_loop fuel n N 3 sum;
  d_to_unsigned F (d_div F (d_mul F sum (d_of_int F 1000000000))
                           (d_of_int F 100000000)).

End Computation.
End Digit.

(** Exact rational arithmetic in the place of the [double]s, to run the
    digit computation in closed examples: no rounding, the logarithm in
    base 2 to eight binary places (only quotients of logarithms are used),
    and the casts by truncation. *)
Definition truncate (x : Q) : Z := Z.quot (Qnum x) (Z.pos (Qden x)).

Definition exact_ops : DoubleOps := {|
  double := Q;
  d_of_int := inject_Z;
  d_add x y := Qred (Qplus x y);
  d_mul x y := Qred (Qmult x y);
  d_div x y := Qred (Qdiv x y);
  d_log x := Qmake (Z.log2 (truncate x ^ 256)) 256;
  d_fmod x y := Qred (Qminus x (Qmult (inject_Z (truncate (Qdiv x y))) y));
  d_to_int x := int_of (truncate x);
  d_to_unsigned x := Returns (truncate x)
|}.

(** The first decimal digits of pi after the point, by index; it stands in
    for the digit computation in closed examples. *)
Definition pi_digit (n : Z) : Z :=
  nth (Z.to_nat n) [3; 1; 4; 1; 5; 9; 2; 6; 5; 3; 5; 8; 9; 7; 9] 0.

(** The table of the ordering example: indices 1 to 5 with the digits
    3, 1, 4, 1, 5. *)
Definition example_digit (i : Z) : Z :=
  nth (Z.to_nat i) [0; 3; 1; 4; 1; 5] 0.

(** An interleaving of two workers on two tasks in which worker 1 stores
    the digit of index 2 before worker 0 stores that of index 1. *)
Definition example_sched : list nat :=
  [0; 0; 0; 0; 0; 0; 1; 1; 1; 1; 1; 1; 1; 1; 1; 1; 0; 0; 0; 0; 1; 0]%nat.

Section WorkerPool.

(** [computePiDigit] evaluates a series in double precision ([std::log],
    [std::fmod], a division of doubles and a final cast); the pool only
    depends on it being a function of the index, so it is a parameter here,
    and its result is read as the [unsigned int] the function returns.
    Its statements are those of [Digit.computePiDigit]. *)
Variable computePiDigit : Z → Z.

(** [Task::computePi]. *)
Definition computePi (task : Task) : Z := to_unsigned (computePiDigit (id task)).

(** One statement of [threadFunction], executed by thread [i].  The
    statements are atomic and interleave; [taskList.isEmpty()] at the loop
    test is the one access to the queue made without the mutex, and it is
    taken here as an atomic read of the queue. *)
Definition thread_step (i : nat) (w : World) : Step :=
  let q := taskList w in
  let t := pieTable w in
  let out := cout w in
  match threads w !! i with
  | None => Stuck
  | Some AtLoopTest =>
      if TaskList.isEmpty q then goto i Returned q t out w
      else goto i AtProgress q t out w
  | Some AtProgress => goto i AtQueueLock q t (put_string "." out) w
  | Some AtQueueLock =>
      match TaskList.lock i q with
      | Some q' => goto i AtGetTask q' t out w
      | None => Stuck
      end
  | Some AtGetTask =>
      match TaskList.getTask q with
      | Some taskTemp => goto i (AtPop taskTemp) q t out w
      | None => Undefined
      end
  | Some (AtPop taskTemp) =>
      match TaskList.pop q with
      | Some q' => goto i (AtQueueUnlock taskTemp) q' t out w
      | None => Undefined
      end
  | Some (AtQueueUnlock taskTemp) =>
      match TaskList.unlock i q with
      | Some q' => goto i (AtCompute taskTemp) q' t out w
      | None => Undefined
      end
  | Some (AtCompute taskTemp) =>
      let pieIndex := id taskTemp in
      let pieNumber := to_int (computePi taskTemp) in
      goto i (AtTableLock pieIndex pieNumber) q t out w
  | Some (AtTableLock pieIndex pieNumber) =>
      match PieTable.lock i t with
      | Some t' => goto i (AtInsert pieIndex pieNumber) q t' out w
      | None => Stuck
      end
  | Some (AtInsert pieIndex pieNumber) =>
      goto i AtTableUnlock q
           (PieTable.insertValue pieIndex (to_unsigned pieNumber) t) out w
  | Some AtTableUnlock =>
      match PieTable.unlock i t with
      | Some t' => goto i AtLoopTest q t' out w
      | None => Undefined
      end
  | Some Returned => Stuck
  end.

(** An interleaving: the threads take a step in the order [sched] names
    them; a thread that cannot move is passed over.  [None] when a step has
    undefined behaviour. *)
Fixpoint run (sched : list nat) (w : World) : option World :=
  match sched with
  | [] => Some w
  | i :: rest =>
      match thread_step i w with
      | Next w' => run rest w'
      | Stuck => run rest w
      | Undefined => None
      end
  end.

(** What [main] does with [numDigitsPie] digits on a machine with [hc]
    hardware threads when the workers interleave as [sched]. *)
Inductive Outcome :=
  | Exits (out : string)    (* all threads joined, the digits printed *)
  | Waits                   (* [sched] ends before every worker returned *)
  | Throws                  (* the thread array could not be allocated *)
  | UndefinedBehaviour.

Definition main_with (numDigitsPie hc : Z) (sched : list nat) : Outcome :=
  match launch numDigitsPie hc with
  | None => Throws
  | Some w0 =>
      match run sched w0 with
      | None => UndefinedBehaviour
      | Some w =>
          if joined w
          then Exits (render numDigitsPie (pieTable w) (cout w)).2
          else Waits
      end
  end.

(** [int numDigitsPie = 1000]. *)
Definition main : Z → list nat → Outcome := main_with 1000.


(** ** Notions used to state the properties *)

(** The retrieval loop of a worker on the queue alone: while the queue is
    not empty, take the front and pop it.  The tasks are listed in the
    order they are retrieved; [fuel] bounds the number of iterations. *)
Fixpoint drain (fuel : nat) (q : TaskList) : option (list Task) :=
  if TaskList.isEmpty q then Some []
  else
    match fuel with
    | O => None
    | S fuel' =>
        task ← TaskList.getTask q;
        q' ← TaskList.pop q;
        rest ← drain fuel' q';
        Some (task :: rest)
    end.

Definition push_all (tasks : list Task) (q : TaskList) : TaskList :=
  fold_left (λ q task, TaskList.push task q) tasks q.

(** A sequence of queue operations, and the tasks its pops retrieve. *)
Inductive QueueOp :=
  | Push (task : Task)
  | Pop.

Fixpoint queue_ops (ops : list QueueOp) (q : TaskList)
    : option (list Task * TaskList) :=
  match ops with
  | [] => Some ([], q)
  | Push task :: ops' => queue_ops ops' (TaskList.push task q)
  | Pop :: ops' =>
      task ← TaskList.getTask q;
      q' ← TaskList.pop q;
      '(got, q'') ← queue_ops ops' q';
      Some (task :: got, q'')
  end.

Definition pushed (ops : list QueueOp) : list Task :=
  omap (λ op, match op with Push task => Some task | Pop => None end) ops.

(** The workers' insertions, in the order [order] lists the indices. *)
Definition store_all (digit : Z → Z) (order : list Z) (t : PieTable) : PieTable :=
  fold_left (λ t i, PieTable.insertValue i (digit i) t) order t.

(** The text of a sequence of decimal digits. *)
Definition digit_char (d : Z) : ascii := ascii_of_nat (48 + Z.to_nat d).

Fixpoint digit_string (ds : list Z) : string :=
  match ds with
  | [] => EmptyString
  | d :: ds' => String (digit_char d) (digit_string ds')
  end.

(** The index a thread has taken from the queue and not yet stored. *)
Definition in_flight (pc : Pc) : option Z :=
  match pc with
  | AtPop taskTemp | AtQueueUnlock taskTemp | AtCompute taskTemp =>
      Some (id taskTemp)
  | AtTableLock pieIndex _ | AtInsert pieIndex _ => Some pieIndex
  | _ => None
  end.

(** Index [k] is in the locals of a thread other than [i]. *)
Definition others_in_flight (l : list Pc) (i : nat) (k : Z) : Prop :=
  ∃ j pc, j ≠ i ∧ l !! j = Some pc ∧ in_flight pc = Some k.

(** The statements between [taskList.lock()] and [taskList.unlock()]. *)
Definition in_queue_section (pc : Pc) : bool :=
  match pc with
  | AtGetTask | AtPop _ | AtQueueUnlock _ => true
  | _ => false
  end.

(** The statements between [pieTable.lock()] and [pieTable.unlock()]. *)
Definition in_table_section (pc : Pc) : bool :=
  match pc with
  | AtInsert _ _ | AtTableUnlock => true
  | _ => false
  end.

(** Where index [k] is: still queued, in the locals of a thread, or in the
    table. *)
Definition held (w : World) (k : Z) : Prop :=
  k ∈ id <$> piQueue (taskList w)
  ∨ (∃ i pc, threads w !! i = Some pc ∧ in_flight pc = Some k)
  ∨ is_Some (pieMap (pieTable w) !! k).

(** The number computed for index [k] is what ends up stored for it. *)
Definition carries (pc : Pc) : Prop :=
  match pc with
  | AtTableLock pieIndex pieNumber | AtInsert pieIndex pieNumber =>
      to_unsigned pieNumber = computePi {| id := pieIndex |}
  | _ => True
  end.

(** What every step of every thread preserves. *)
Record pool_inv (numDigitsPie : Z) (w : World) : Prop := {
  inv_owner : ∀ i pc, threads w !! i = Some pc →
      in_queue_section pc = true → queueMutex (taskList w) = Some i;
  inv_front : ∀ i taskTemp, threads w !! i = Some (AtPop taskTemp) →
      head (piQueue (taskList w)) = Some taskTemp;
  inv_held : ∀ k, 1 ≤ k < numDigitsPie ↔ held w k;
  inv_carries : ∀ i pc, threads w !! i = Some pc → carries pc;
  inv_stored : ∀ k v, pieMap (pieTable w) !! k = Some v →
      v = computePi {| id := k |};
  inv_returned : ∀ i, threads w !! i = Some Returned →
      piQueue (taskList w) = []
}.

(** Who holds the mutexes. *)
Record lock_inv (w : World) : Prop := {
  inv_table_owner : ∀ i pc, threads w !! i = Some pc →
      in_table_section pc = true → hashMutex (pieTable w) = Some i;
  inv_queue_owned : ∀ i, queueMutex (taskList w) = Some i →
      ∃ pc, threads w !! i = Some pc ∧ in_queue_section pc = true;
  inv_table_owned : ∀ i, hashMutex (pieTable w) = Some i →
      ∃ pc, threads w !! i = Some pc ∧ in_table_section pc = true
}.

(** A bound on the statements the threads can still execute: every
    statement lowers the rank of its thread, except the pop, which shortens
    the queue. *)
Definition rank (pc : Pc) : nat :=
  match pc with
  | Returned => 0
  | AtPop _ => 1
  | AtGetTask => 2
  | AtQueueLock => 3
  | AtProgress => 4
  | AtLoopTest => 5
  | AtTableUnlock => 6
  | AtInsert _ _ => 7
  | AtTableLock _ _ => 8
  | AtCompute _ => 9
  | AtQueueUnlock _ => 10
  end.

Definition steps_left (w : World) : nat :=
  10 * length (piQueue (taskList w)) + sum_list (rank <$> threads w).

(** The statements executed along an interleaving (the entries of [sched]
    at which the thread named could move), up to the first statement with
    undefined behaviour: nothing is counted from there on, since nothing
    is known of what the program does then. *)
Fixpoint steps_taken (sched : list nat) (w : World) : nat :=
  match sched with
  | [] => 0
  | i :: rest =>
      match thread_step i w with
      | Next w' => S (steps_taken rest w')
      | Stuck => steps_taken rest w
      | Undefined => 0
      end
  end.

(** The interleaving in which thread [j] tests the queue while it still
    holds its last task, thread [i] takes that task, and thread [j] then
    goes on to take a task. *)
Definition stale_test (i j : nat) : list nat :=
  [i; j; i; i; i; i; i; j; j; j]%nat.

(** Thread [i] runs [n] iterations of its loop on its own. *)
Definition solo (i : nat) (n : nat) : list nat := replicate (10 * n) i.

(** The index a thread has popped and not yet stored (at [AtPop] the task
    read is still at the front of the queue). *)
Definition taken (pc : Pc) : option Z :=
  match pc with
  | AtQueueUnlock taskTemp | AtCompute taskTemp => Some (id taskTemp)
  | AtTableLock pieIndex _ | AtInsert pieIndex _ => Some pieIndex
  | _ => None
  end.

Definition holds (k : Z) (pc : Pc) : nat :=
  if decide (taken pc = Some k) then 1 else 0.

(** The number of places at which index [k] is: once for each task of the
    queue with this index, once for each thread that has taken it, once
    when the table has an entry for it. *)
Definition occurrences (w : World) (k : Z) : nat :=
  length (filter (λ task, id task = k) (piQueue (taskList w)))
  + sum_list (holds k <$> threads w)
  + (if decide (is_Some (pieMap (pieTable w) !! k)) then 1 else 0).

Definition once_inv (numDigitsPie : Z) (w : World) : Prop :=
  ∀ k, occurrences w k = if decide (1 ≤ k < numDigitsPie) then 1%nat else 0%nat.

(** The threads that have printed their progress mark and not yet popped
    a task. *)
Definition marked (pc : Pc) : nat :=
  match pc with
  | AtQueueLock | AtGetTask | AtPop _ => 1
  | _ => 0
  end.

Fixpoint dots (n : nat) : string :=
  match n with
  | O => EmptyString
  | S n' => String "."%char (dots n')
  end.

(** The output so far is [before] and one mark per task taken or about to
    be taken; [total] is the number of tasks loaded. *)
Definition marks_inv (before : string) (total : nat) (w : World) : Prop :=
  ∃ d, cout w = before +:+ dots d
       ∧ (d + length (piQueue (taskList w))
          = total + sum_list (marked <$> threads w))%nat.

(** The two lines [main] prints before it loads the queue. *)
Definition header (numDigitsPie hc : Z) : string :=
  "Computing pi with " +:+ pretty (to_int hc) +:+ " threads " +:+ newline
  +:+ pretty numDigitsPie +:+ " Digits" +:+ newline.

(** The statements from the loop test that found a task to the [front]
    that reads it. *)
Definition before_front (pc : Pc) : bool :=
  match pc with
  | AtProgress | AtQueueLock | AtGetTask => true
  | _ => false
  end.

(** A pool of one worker: between its loop test and its [front] the queue
    is not empty. *)
Definition solo_inv (w : World) : Prop :=
  ∃ pc, threads w = [pc]
        ∧ (before_front pc = true → piQueue (taskList w) ≠ []).

(** The text of a sequence of [int]s printed one after the other. *)
Definition ints_text (values : list Z) : string :=
  foldr (λ n text, pretty n +:+ text) EmptyString values.

(** * Properties *)

(** ** Machine integers *)

Lemma to_int_small z : - 2 ^ 31 ≤ z < 2 ^ 31 → to_int z = z.
Proof.
  intros Hz. unfold to_int.
  rewrite Z.mod_small by lia. lia.
Qed.

Lemma to_unsigned_small z : 0 ≤ z < 2 ^ 32 → to_unsigned z = z.
Proof. intros Hz. unfold to_unsigned. by rewrite Z.mod_small. Qed.

Lemma to_unsigned_range z : 0 ≤ to_unsigned z < 2 ^ 32.
Proof. unfold to_unsigned. apply Z.mod_pos_bound. lia. Qed.

Lemma to_unsigned_to_int z : to_unsigned (to_int z) = to_unsigned z.
Proof.
  unfold to_unsigned, to_int.
  rewrite Zminus_mod_idemp_l. f_equal. lia.
Qed.

Lemma to_unsigned_idemp z : to_unsigned (to_unsigned z) = to_unsigned z.
Proof. apply to_unsigned_small, to_unsigned_range. Qed.

(** ** The task queue *)

Lemma piQueue_push_all tasks q :
  piQueue (push_all tasks q) = piQueue q ++ tasks.
Proof.
  revert q. induction tasks as [|task tasks IH]; intros q; simpl.
  - by rewrite app_nil_r.
  - rewrite IH. simpl. by rewrite <- app_assoc.
Qed.

Lemma queueMutex_push_all tasks q :
  queueMutex (push_all tasks q) = queueMutex q.
Proof.
  revert q. induction tasks as [|task tasks IH]; intros q; simpl; [done|].
  by rewrite IH.
Qed.

(** With fuel for every queued task, the retrieval loop returns the content
    of the queue, front first. *)
Lemma drain_queue fuel q :
  (length (piQueue q) ≤ fuel)%nat → drain fuel q = Some (piQueue q).
Proof.
  revert q. induction fuel as [|fuel IH]; intros [tasks m] Hfuel; simpl in *.
  - destruct tasks; simpl in *; [done | lia].
  - destruct tasks as [|task tasks]; simpl in *; [done|].
    unfold TaskList.isEmpty, TaskList.getTask, TaskList.pop. simpl.
    rewrite IH by (simpl; lia). done.
Qed.

(** X1: Pops retrieve a prefix of what was queued and pushed, in that order. *)
Lemma queue_ops_fifo ops q got q' :
  queue_ops ops q = Some (got, q') →
  got ++ piQueue q' = piQueue q ++ pushed ops.
Proof.
  revert q got q'. induction ops as [|[task|] ops IH]; intros q got q' Hops.
  - simpl in *. simplify_eq. by rewrite app_nil_r.
  - simpl in *. apply IH in Hops. simpl in Hops.
    by rewrite <- app_assoc in Hops.
  - simpl in Hops. destruct q as [[|task tasks] m]; [done|].
    unfold TaskList.getTask, TaskList.pop in Hops. simpl in Hops.
    destruct (queue_ops ops _) as [[got' q'']|] eqn:Hrest; [|done].
    simpl in Hops. simplify_eq. apply IH in Hrest. simpl in *.
    by rewrite Hrest.
Qed.

(** C5: the queue is first in, first out.  For every list of tasks,
    pushing them on an empty queue and then retrieving until the queue is
    empty (front, pop) returns the tasks in the order they were pushed, and
    the retrieval needs one iteration per task. *)
Theorem taskqueue_fifo (tasks : list Task) :
  drain (length tasks) (push_all tasks TaskList.empty) = Some tasks.
Proof.
  rewrite drain_queue.
  - by rewrite piQueue_push_all.
  - by rewrite piQueue_push_all.
Qed.

(** The queue has no operation that reports an empty queue in place of a
    task: [front] and [pop] of an empty queue are undefined. *)
Lemma front_pop_empty :
  TaskList.getTask TaskList.empty = None ∧ TaskList.pop TaskList.empty = None.
Proof. done. Qed.

(** ** The result table *)

Lemma get_stored index value t :
  pieMap t !! index = Some value → PieTable.get index t = (to_int value, t).
Proof. intros Hv. unfold PieTable.get. by rewrite Hv. Qed.

Lemma insertValue_lookup key value t :
  pieMap (PieTable.insertValue key value t) !! key
  = Some (default value (pieMap t !! key)).
Proof.
  unfold PieTable.insertValue.
  destruct (pieMap t !! key) as [old|] eqn:Hold; simpl; [done|].
  by rewrite lookup_insert_eq.
Qed.

Lemma insertValue_lookup_ne key value t k :
  key ≠ k →
  pieMap (PieTable.insertValue key value t) !! k = pieMap t !! k.
Proof.
  intros Hne. unfold PieTable.insertValue.
  destruct (pieMap t !! key); simpl; [done|].
  by rewrite lookup_insert_ne.
Qed.

Lemma insertValue_hashMutex key value t :
  hashMutex (PieTable.insertValue key value t) = hashMutex t.
Proof. unfold PieTable.insertValue. by destruct (pieMap t !! key). Qed.


(** C3, as the code has it: [get] has no failure.  For an index without an
    entry it returns 0, which is also what it returns for a stored digit
    0. *)
Theorem get_missing_returns_zero (index : Z) (t : PieTable) :
  pieMap t !! index = None →
  (PieTable.get index t).1 = 0
  ∧ ∀ t', pieMap t' !! index = Some 0 →
          (PieTable.get index t).1 = (PieTable.get index t').1.
Proof.
  intros Hnone. unfold PieTable.get at 1 2. rewrite Hnone. simpl.
  split; [done|]. intros t' Hzero. by rewrite (get_stored _ _ _ Hzero).
Qed.

(** C10: [get] on an index without an entry is not a read.  It adds the
    entry [index ↦ 0] to the table, so the table after the call differs
    from the table before it, and it returns 0; the result and the table
    are those of a [get] on the table in which digit 0 had been stored for
    the index, and the printing loop of [main] prints "0" for it. *)
Theorem get_missing_inserts_zero (index : Z) (t : PieTable) :
  pieMap t !! index = None →
  PieTable.get index t
    = (0, {| hashMutex := hashMutex t; pieMap := <[index := 0]> (pieMap t) |})
  ∧ (PieTable.get index t).2 ≠ t
  ∧ PieTable.get index t
    = PieTable.get index (PieTable.insertValue index 0 t)
  ∧ ∀ out, print_digits [index] t out
           = (PieTable.insertValue index 0 t, out +:+ "0").
Proof.
  intros Hnone.
  assert (PieTable.get index t = (0, PieTable.insertValue index 0 t)) as Hget.
  { unfold PieTable.get, PieTable.insertValue. by rewrite Hnone. }
  split_and!.
  - rewrite Hget. unfold PieTable.insertValue. by rewrite Hnone.
  - rewrite Hget. simpl. intros Heq.
    pose proof (insertValue_lookup index 0 t) as Hin.
    rewrite Heq, Hnone in Hin. done.
  - rewrite Hget. symmetry.
    rewrite (get_stored index 0); [done|].
    rewrite insertValue_lookup. by rewrite Hnone.
  - intros out. simpl. by rewrite Hget.
Qed.


(** ** Rendering *)

Lemma string_app_cons c (s1 s2 : string) :
  String c s1 +:+ s2 = String c (s1 +:+ s2).
Proof. reflexivity. Qed.

Lemma string_app_assoc (s1 s2 s3 : string) :
  (s1 +:+ s2) +:+ s3 = s1 +:+ s2 +:+ s3.
Proof.
  induction s1 as [|c s1 IH]; [done|].
  by rewrite !string_app_cons, IH.
Qed.

Lemma string_app_nil_r (s : string) : s +:+ "" = s.
Proof.
  induction s as [|c s IH]; [done|].
  by rewrite string_app_cons, IH.
Qed.

(** A decimal digit is printed as its character. *)
Lemma pretty_digit d :
  0 ≤ d ≤ 9 → pretty (to_int d) = String (digit_char d) "".
Proof.
  intros Hd.
  assert (d = 0 ∨ d = 1 ∨ d = 2 ∨ d = 3 ∨ d = 4 ∨ d = 5 ∨ d = 6 ∨ d = 7
          ∨ d = 8 ∨ d = 9) as Hcases by lia.
  destruct_or!; subst d; reflexivity.
Qed.

(** Printing stored digits does not change the table and appends their
    characters in the order of the indices given. *)
Lemma print_digits_stored (digit : Z → Z) indices t out :
  (∀ i, i ∈ indices → pieMap t !! i = Some (digit i) ∧ 0 ≤ digit i ≤ 9) →
  print_digits indices t out
  = (t, out +:+ digit_string (digit <$> indices)).
Proof.
  revert out. induction indices as [|i indices IH]; intros out Hstored; simpl.
  - by rewrite string_app_nil_r.
  - destruct (Hstored i) as [Hi Hd]; [left|].
    rewrite (get_stored _ _ _ Hi).
    rewrite IH by (intros k Hk; apply Hstored; by right).
    unfold put_int. rewrite (pretty_digit _ Hd).
    by rewrite string_app_assoc, string_app_cons.
Qed.

Lemma store_all_lookup_ne digit order t k :
  k ∉ order → pieMap (store_all digit order t) !! k = pieMap t !! k.
Proof.
  revert t. induction order as [|i order IH]; intros t Hk; simpl; [done|].
  rewrite IH by set_solver.
  apply insertValue_lookup_ne. set_solver.
Qed.

Lemma store_all_lookup_stored digit order t k v :
  pieMap t !! k = Some v → pieMap (store_all digit order t) !! k = Some v.
Proof.
  revert t. induction order as [|i order IH]; intros t Hk; simpl; [done|].
  apply IH. destruct (decide (i = k)) as [->|Hne].
  - rewrite insertValue_lookup. by rewrite Hk.
  - by rewrite insertValue_lookup_ne.
Qed.

(** Whatever the order of the insertions, an index that had no entry ends
    up with its own digit. *)
Lemma store_all_lookup digit order t k :
  pieMap t !! k = None → k ∈ order →
  pieMap (store_all digit order t) !! k = Some (digit k).
Proof.
  revert t. induction order as [|i order IH]; intros t Hnone Hk;
    [set_solver|].
  simpl. destruct (decide (i = k)) as [->|Hne].
  - apply store_all_lookup_stored.
    rewrite insertValue_lookup. by rewrite Hnone.
  - apply IH; [by rewrite insertValue_lookup_ne|].
    apply elem_of_cons in Hk as [Hk|Hk]; [by subst | done].
Qed.

(** Rendering a table that has a digit for each index printed leaves the
    table as it is and appends the digits in ascending index order. *)
Lemma render_stored (numDigitsPie : Z) (digit : Z → Z) (t : PieTable) out :
  (∀ i, 1 ≤ i < numDigitsPie →
        pieMap t !! i = Some (digit i) ∧ 0 ≤ digit i ≤ 9) →
  render numDigitsPie t out
  = (t, out +:+ newline +:+ "3."
            +:+ digit_string (digit <$> seqZ 1 (numDigitsPie - 1))
            +:+ newline).
Proof.
  intros Hstored. unfold render.
  rewrite (print_digits_stored digit).
  - unfold put_string. by rewrite !string_app_assoc.
  - intros i Hi. apply elem_of_seqZ in Hi. apply Hstored. lia.
Qed.

(** C4: the rendered output is the text before it, a line break, "3." and
    the stored digits in ascending index order, then a line break.  This
    holds for every table that has a digit for each index printed, so in
    particular for the table the insertions build in any order [order] of
    the indices: the order of completion does not show in the output. *)
Theorem render_ascending (numDigitsPie : Z) (digit : Z → Z) (out : string) :
  (∀ i, 1 ≤ i < numDigitsPie → 0 ≤ digit i ≤ 9) →
  let text :=
    out +:+ newline +:+ "3."
        +:+ digit_string (digit <$> seqZ 1 (numDigitsPie - 1)) +:+ newline in
  (∀ t, (∀ i, 1 ≤ i < numDigitsPie → pieMap t !! i = Some (digit i)) →
        render numDigitsPie t out = (t, text))
  ∧ (∀ order, order ≡ₚ seqZ 1 (numDigitsPie - 1) →
        (render numDigitsPie (store_all digit order PieTable.empty) out).2
        = text).
Proof.
  intros Hdigit text. split.
  - intros t Hstored. apply render_stored. auto.
  - intros order Horder. rewrite (render_stored _ digit); [done|].
    intros i Hi. split; [|auto].
    apply store_all_lookup; [done|].
    rewrite Horder. apply elem_of_seqZ. lia.
Qed.

(** ** The worker pool: what every interleaving preserves *)

Lemma lookup_goto (l : list Pc) i pc' j pc :
  is_Some (l !! i) →
  <[i := pc']> l !! j = Some pc ↔ (j = i ∧ pc = pc') ∨ (j ≠ i ∧ l !! j = Some pc).
Proof.
  intros Hi. apply lookup_lt_is_Some in Hi.
  destruct (decide (j = i)) as [->|Hne].
  - rewrite list_lookup_insert_eq by done.
    split; [intros [= <-]; auto | intros [[_ ->]|[? _]]; done].
  - rewrite list_lookup_insert_ne by done.
    split; [auto | intros [[? _]|[_ ?]]; done].
Qed.

Lemma in_flight_split (l : list Pc) i pc0 k :
  l !! i = Some pc0 →
  (∃ j pc, l !! j = Some pc ∧ in_flight pc = Some k)
  ↔ in_flight pc0 = Some k ∨ others_in_flight l i k.
Proof.
  intros Hi. unfold others_in_flight. split.
  - intros (j & pc & Hj & Hk). destruct (decide (j = i)) as [->|Hne].
    + left. congruence.
    + right. by exists j, pc.
  - intros [Hk|(j & pc & _ & Hj & Hk)]; eauto.
Qed.

Lemma in_flight_goto (l : list Pc) i pc' k :
  is_Some (l !! i) →
  (∃ j pc, <[i := pc']> l !! j = Some pc ∧ in_flight pc = Some k)
  ↔ in_flight pc' = Some k ∨ others_in_flight l i k.
Proof.
  intros Hi. unfold others_in_flight. split.
  - intros (j & pc & Hj & Hk).
    apply (lookup_goto _ _ _ _ _ Hi) in Hj as [[-> ->]|[Hne Hj]]; [by left|].
    right. by exists j, pc.
  - intros [Hk|(j & pc & Hne & Hj & Hk)].
    + exists i, pc'. split; [|done]. apply lookup_goto; auto.
    + exists j, pc. split; [|done]. apply lookup_goto; auto.
Qed.

Lemma held_split w i pc0 k :
  threads w !! i = Some pc0 →
  held w k
  ↔ k ∈ id <$> piQueue (taskList w)
    ∨ (in_flight pc0 = Some k ∨ others_in_flight (threads w) i k)
    ∨ is_Some (pieMap (pieTable w) !! k).
Proof. intros Hi. unfold held. by rewrite (in_flight_split _ _ _ _ Hi). Qed.

Lemma held_goto l i pc' q t out k :
  is_Some (l !! i) →
  held {| taskList := q; pieTable := t; cout := out;
          threads := <[i := pc']> l |} k
  ↔ k ∈ id <$> piQueue q
    ∨ (in_flight pc' = Some k ∨ others_in_flight l i k)
    ∨ is_Some (pieMap t !! k).
Proof. intros Hi. unfold held. simpl. by rewrite (in_flight_goto _ _ _ _ Hi). Qed.

Lemma insertValue_is_Some key value t k :
  is_Some (pieMap (PieTable.insertValue key value t) !! k)
  ↔ key = k ∨ is_Some (pieMap t !! k).
Proof.
  destruct (decide (key = k)) as [->|Hne].
  - rewrite insertValue_lookup. split; [by left | by eexists].
  - rewrite insertValue_lookup_ne by done. split; [by right | by intros [?|?]].
Qed.

Lemma computePi_carried task :
  to_unsigned (to_int (computePi task)) = computePi {| id := id task |}.
Proof.
  destruct task as [k]. simpl.
  rewrite to_unsigned_to_int. apply to_unsigned_idemp.
Qed.

(** The invariant is kept by every statement of every thread.  After the
    case analysis on the statement, the fields are proved in turn; most
    cases of a field follow one pattern, the others are the bullets at the
    end. *)
Lemma step_preserves_inv numDigitsPie i w w' :
  pool_inv numDigitsPie w → thread_step i w = Next w' →
  pool_inv numDigitsPie w'.
Proof.
  intros [Howner Hfront Hheld Hcarries Hstored Hreturned] Hstep.
  unfold thread_step in Hstep.
  destruct (threads w !! i) as [pc0|] eqn:Hpc; [|done].
  assert (is_Some (threads w !! i)) as Hsome by eauto.
  pose proof (Howner i _ Hpc) as Howner_i.
  pose proof (Hfront i) as Hfront_i.
  pose proof (Hcarries i _ Hpc) as Hcarries_i.
  pose proof (Hreturned i) as Hreturned_i.
  assert (∀ k, 1 ≤ k < numDigitsPie
    ↔ k ∈ id <$> piQueue (taskList w)
      ∨ (in_flight pc0 = Some k ∨ others_in_flight (threads w) i k)
      ∨ is_Some (pieMap (pieTable w) !! k)) as Hheld_i.
  { intros k. by rewrite Hheld, (held_split _ _ _ _ Hpc). }
  clear Hheld.
  unfold goto, TaskList.lock, TaskList.unlock, TaskList.getTask, TaskList.pop,
    TaskList.isEmpty, PieTable.lock, PieTable.unlock in Hstep.
  destruct pc0; simpl in *; repeat case_match; simplify_eq.
  all: split; simpl.
  all: repeat match goal with H : piQueue _ = _ |- _ => rewrite H end.
  (* [inv_owner] *)
  all: try (intros j pc Hj Hsec;
    apply (lookup_goto _ _ _ _ _ Hsome) in Hj as [[-> ->]|[Hne Hj]];
    [try done; simpl in *; try (specialize (Howner_i eq_refl)); congruence
    | pose proof (Howner j pc Hj Hsec); simpl in *; congruence]).
  (* [inv_front] *)
  all: try (intros j task' Hj;
    apply (lookup_goto _ _ _ _ _ Hsome) in Hj as [[-> Heq]|[Hne Hj]];
    [simplify_eq; simpl in *; congruence
    | pose proof (Hfront j task' Hj); pose proof (Howner j _ Hj eq_refl);
      simpl in *; try (specialize (Howner_i eq_refl)); congruence]).
  (* [inv_carries] *)
  all: try (intros j pc Hj;
    apply (lookup_goto _ _ _ _ _ Hsome) in Hj as [[-> ->]|[Hne Hj]];
    [simpl in *; try done | by apply (Hcarries j)]).
  (* [inv_stored] *)
  all: try exact Hstored.
  (* [inv_returned] *)
  all: try (intros j Hj;
    apply (lookup_goto _ _ _ _ _ Hsome) in Hj as [[-> Heq]|[Hne Hj]];
    [simplify_eq; simpl in *; try done
    | pose proof (Hreturned j Hj); simpl in *; congruence]).
  (* [inv_held] *)
  all: try (intros k; rewrite (Hheld_i k), held_goto by done; simpl;
    repeat match goal with H : piQueue _ = _ |- _ => rewrite H end; tauto).
  - (* the front is read: it is still queued *)
    intros k. rewrite (Hheld_i k), held_goto by done. simpl.
    match goal with H : piQueue _ = _ |- _ => rewrite H end.
    rewrite fmap_cons, !elem_of_cons. intuition (simplify_eq; auto).
  - (* the front is popped: the thread holds it *)
    intros k. rewrite (Hheld_i k), held_goto by done. cbn [piQueue].
    rewrite fmap_cons, !elem_of_cons.
    specialize (Hfront_i _ Hpc). simpl in Hfront_i. simplify_eq.
    intuition (simplify_eq; auto).
  - apply computePi_carried.
  - (* the digit is stored *)
    intros k. rewrite (Hheld_i k), held_goto by done. simpl.
    rewrite insertValue_is_Some. intuition (simplify_eq; auto).
  - intros k v Hk. destruct (decide (pieIndex = k)) as [->|Hne].
    + rewrite insertValue_lookup in Hk.
      destruct (pieMap (pieTable w) !! k) as [old|] eqn:Hold; simpl in Hk.
      * simplify_eq. by apply Hstored.
      * by simplify_eq.
    + rewrite insertValue_lookup_ne in Hk by done. by apply Hstored.
Qed.

Lemma run_preserves_inv numDigitsPie sched w w' :
  pool_inv numDigitsPie w → run sched w = Some w' → pool_inv numDigitsPie w'.
Proof.
  revert w. induction sched as [|i sched IH]; intros w Hinv Hrun; simpl in Hrun.
  - by simplify_eq.
  - destruct (thread_step i w) as [w1| |] eqn:Hstep; [|by apply (IH w)|done].
    apply (IH w1); [|done]. by apply (step_preserves_inv _ i w).
Qed.

(** No step creates or removes a thread. *)
Lemma step_threads_length i w w' :
  thread_step i w = Next w' → length (threads w') = length (threads w).
Proof.
  unfold thread_step, goto. intros Hstep.
  repeat case_match; simplify_eq; simpl; apply length_insert.
Qed.

Lemma run_threads_length sched w w' :
  run sched w = Some w' → length (threads w') = length (threads w).
Proof.
  revert w. induction sched as [|i sched IH]; intros w Hrun; simpl in Hrun.
  - by simplify_eq.
  - destruct (thread_step i w) as [w1| |] eqn:Hstep; [|by apply IH|done].
    rewrite (IH w1) by done. by apply (step_threads_length i).
Qed.

Lemma joined_returned w i pc :
  joined w = true → threads w !! i = Some pc → pc = Returned.
Proof.
  unfold joined. intros Hall Hi.
  apply list_elem_of_lookup_2, list_elem_of_In in Hi.
  rewrite forallb_forall in Hall. apply Hall in Hi. by destruct pc.
Qed.

(** ** [main] up to the creation of the threads *)

Lemma load_push_all indices q :
  fold_left (λ q i, TaskList.push {| id := i |} q) indices q
  = push_all (Build_Task <$> indices) q.
Proof.
  revert q. induction indices as [|i indices IH]; intros q; simpl; [done|].
  apply IH.
Qed.

Lemma id_Build_Task (indices : list Z) :
  id <$> (Build_Task <$> indices) = indices.
Proof.
  induction indices as [|i indices IH]; [done|].
  rewrite !fmap_cons. simpl. by rewrite IH.
Qed.

Lemma piQueue_load numDigitsPie :
  piQueue (load numDigitsPie) = Build_Task <$> seqZ 1 (numDigitsPie - 1).
Proof. unfold load. by rewrite load_push_all, piQueue_push_all. Qed.

Lemma queueMutex_load numDigitsPie : queueMutex (load numDigitsPie) = None.
Proof. unfold load. by rewrite load_push_all, queueMutex_push_all. Qed.

Lemma launch_Some numDigitsPie hc w0 :
  launch numDigitsPie hc = Some w0 →
  0 ≤ to_int hc
  ∧ taskList w0 = load numDigitsPie
  ∧ pieTable w0 = PieTable.empty
  ∧ threads w0 = replicate (Z.to_nat (to_int hc)) AtLoopTest.
Proof.
  unfold launch. intros Hlaunch. case_decide; simplify_eq. simpl.
  split_and!; [lia|done..].
Qed.

Lemma launch_inv numDigitsPie hc w0 :
  launch numDigitsPie hc = Some w0 → pool_inv numDigitsPie w0.
Proof.
  intros (_ & Hq & Ht & Hthreads)%launch_Some.
  assert (∀ i pc, threads w0 !! i = Some pc → pc = AtLoopTest) as Hstart.
  { intros i pc. rewrite Hthreads. by intros [-> _]%lookup_replicate. }
  split.
  - by intros i pc ->%Hstart.
  - by intros i taskTemp ?%Hstart.
  - intros k. unfold held. rewrite Hq, Ht, piQueue_load. simpl.
    rewrite id_Build_Task, elem_of_seqZ, lookup_empty. split; [left; lia|].
    intros [?|[(i & pc & Hi & Hk)|[? [=]]]]; [lia|].
    apply Hstart in Hi as ->. done.
  - by intros i pc ->%Hstart.
  - intros k v. rewrite Ht. simpl. by rewrite lookup_empty.
  - by intros i ?%Hstart.
Qed.

(** ** Particular interleavings *)

Lemma lookup_first (ths : list Pc) i j a b :
  (i < length ths)%nat → <[i := a]> (<[j := b]> ths) !! i = Some a.
Proof. intros Hi. apply list_lookup_insert_eq. by rewrite length_insert. Qed.

Lemma lookup_second (ths : list Pc) i j a b :
  i ≠ j → (j < length ths)%nat → <[i := a]> (<[j := b]> ths) !! j = Some b.
Proof.
  intros Hne Hj. rewrite list_lookup_insert_ne by done.
  by apply list_lookup_insert_eq.
Qed.

Lemma insert_second (ths : list Pc) i j a b b' :
  i ≠ j →
  <[j := b']> (<[i := a]> (<[j := b]> ths)) = <[i := a]> (<[j := b']> ths).
Proof.
  intros Hne. rewrite list_insert_insert_ne by done.
  by rewrite list_insert_insert_eq.
Qed.

(** Symbolic execution of one entry of a schedule: [find] rewrites the
    lookup of the thread that moves, [tidy] brings the list of threads back
    to the form [<[i := a]> (<[j := b]> ths)]. *)
Ltac step_with find tidy :=
  cbn [run]; unfold thread_step at 1; cbn [threads taskList pieTable cout];
  find;
  cbn [TaskList.isEmpty TaskList.lock TaskList.unlock TaskList.getTask
       TaskList.pop PieTable.lock PieTable.unlock piQueue queueMutex
       hashMutex pieMap];
  rewrite ?decide_True by done;
  unfold goto; cbn [threads taskList pieTable cout];
  tidy.

Ltac step_first :=
  step_with ltac:(rewrite lookup_first by done)
            ltac:(rewrite list_insert_insert_eq).

Ltac step_second :=
  step_with ltac:(rewrite lookup_second by done)
            ltac:(rewrite ?insert_second by done).

Ltac step_solo :=
  step_with ltac:(rewrite list_lookup_insert_eq by done)
            ltac:(rewrite list_insert_insert_eq).

Lemma run_app sched1 sched2 w :
  run (sched1 ++ sched2) w = run sched1 w ≫= run sched2.
Proof.
  revert w. induction sched1 as [|i sched1 IH]; intros w; simpl; [done|].
  destruct (thread_step i w); by rewrite ?IH.
Qed.

Lemma stale_test_normal (ths : list Pc) i j task t out :
  i ≠ j → (i < length ths)%nat → (j < length ths)%nat →
  run (stale_test i j)
      {| taskList := {| piQueue := [task]; queueMutex := None |};
         pieTable := t; cout := out;
         threads := <[i := AtLoopTest]> (<[j := AtLoopTest]> ths) |} = None.
Proof.
  intros Hne Hi Hj. unfold stale_test.
  step_first. step_second. step_first. step_first. step_first. step_first.
  step_first. step_second. step_second. step_second. done.
Qed.

Lemma stale_test_undefined w i j task :
  i ≠ j →
  threads w !! i = Some AtLoopTest → threads w !! j = Some AtLoopTest →
  piQueue (taskList w) = [task] → queueMutex (taskList w) = None →
  run (stale_test i j) w = None.
Proof.
  intros Hne Hi Hj Hq Hm. destruct w as [[q m] t out ths]. simpl in *. subst.
  rewrite <- (list_insert_id ths j AtLoopTest) by done.
  rewrite <- (list_insert_id (<[j := _]> ths) i AtLoopTest)
    by (by rewrite list_lookup_insert_ne).
  apply stale_test_normal; eauto using lookup_lt_Some.
Qed.

Lemma unlock_insertValue i key value pm :
  PieTable.unlock i
    (PieTable.insertValue key value {| hashMutex := Some i; pieMap := pm |})
  = Some {| hashMutex := None;
            pieMap := pieMap (PieTable.insertValue key value
                                {| hashMutex := None; pieMap := pm |}) |}.
Proof.
  unfold PieTable.unlock, PieTable.insertValue. simpl.
  destruct (pm !! key); simpl; by rewrite decide_True.
Qed.

(** One iteration of the loop by a thread that is not interrupted: ten
    statements that take the front task and store its digit. *)
Lemma solo_iteration_normal i task rest pm out ths :
  (i < length ths)%nat →
  run (solo i 1)
      {| taskList := {| piQueue := task :: rest; queueMutex := None |};
         pieTable := {| hashMutex := None; pieMap := pm |};
         cout := out; threads := <[i := AtLoopTest]> ths |}
  = Some
      {| taskList := {| piQueue := rest; queueMutex := None |};
         pieTable :=
           {| hashMutex := None;
              pieMap := pieMap (PieTable.insertValue (id task) (computePi task)
                                  {| hashMutex := None; pieMap := pm |}) |};
         cout := put_string "." out; threads := <[i := AtLoopTest]> ths |}.
Proof.
  intros Hi. unfold solo. cbn [Nat.mul Nat.add replicate].
  do 9 step_solo.
  cbn [run]; unfold thread_step at 1; cbn [threads taskList pieTable cout].
  rewrite list_lookup_insert_eq by done.
  rewrite computePi_carried, unlock_insertValue.
  unfold goto; cbn [threads]. rewrite list_insert_insert_eq.
  by destruct task.
Qed.

Lemma solo_iteration i task rest pm out ths :
  ths !! i = Some AtLoopTest →
  run (solo i 1)
      {| taskList := {| piQueue := task :: rest; queueMutex := None |};
         pieTable := {| hashMutex := None; pieMap := pm |};
         cout := out; threads := ths |}
  = Some
      {| taskList := {| piQueue := rest; queueMutex := None |};
         pieTable :=
           {| hashMutex := None;
              pieMap := pieMap (PieTable.insertValue (id task) (computePi task)
                                  {| hashMutex := None; pieMap := pm |}) |};
         cout := put_string "." out; threads := ths |}.
Proof.
  intros Hi.
  pose proof (solo_iteration_normal i task rest pm out ths) as Hrun.
  rewrite list_insert_id in Hrun by done.
  apply Hrun. eauto using lookup_lt_Some.
Qed.

(** A thread on its own takes the tasks at the front one after the other;
    the threads, the mutexes and the rest of the queue are as before. *)
Lemma solo_drains i tasks rest pm out ths :
  ths !! i = Some AtLoopTest →
  ∃ pm' out',
    run (solo i (length tasks))
        {| taskList := {| piQueue := tasks ++ rest; queueMutex := None |};
           pieTable := {| hashMutex := None; pieMap := pm |};
           cout := out; threads := ths |}
    = Some {| taskList := {| piQueue := rest; queueMutex := None |};
              pieTable := {| hashMutex := None; pieMap := pm' |};
              cout := out'; threads := ths |}.
Proof.
  intros Hi. revert pm out.
  induction tasks as [|task tasks IH]; intros pm out.
  - by exists pm, out.
  - change (solo i (length (task :: tasks)))
      with (replicate (10 * S (length tasks)) i).
    replace (10 * S (length tasks))%nat with (10 * 1 + 10 * length tasks)%nat
      by lia.
    rewrite replicate_add, run_app.
    change (replicate (10 * 1) i) with (solo i 1).
    simpl app. rewrite solo_iteration by done. simpl.
    apply IH.
Qed.


(** ** The claims on the worker pool *)

Lemma load_eq numDigitsPie :
  load numDigitsPie
  = {| piQueue := Build_Task <$> seqZ 1 (numDigitsPie - 1); queueMutex := None |}.
Proof.
  pose proof (piQueue_load numDigitsPie) as Hq.
  pose proof (queueMutex_load numDigitsPie) as Hm.
  destruct (load numDigitsPie). simpl in *. by subst.
Qed.

Lemma launch_eq numDigitsPie hc :
  0 ≤ to_int hc →
  ∃ out, launch numDigitsPie hc
    = Some {| taskList := {| piQueue := Build_Task <$> seqZ 1 (numDigitsPie - 1);
                             queueMutex := None |};
              pieTable := {| hashMutex := None; pieMap := ∅ |};
              cout := out;
              threads := replicate (Z.to_nat (to_int hc)) AtLoopTest |}.
Proof.
  intros Hhc. unfold launch. rewrite decide_False by lia.
  rewrite load_eq. by eexists.
Qed.

(** C1: the queue has no combined test-and-remove; the worker tests
    [isEmpty] and removes in separate statements, and only the removal is
    under the mutex.  When two workers are at the loop test and one task is
    queued, both tests find the queue not empty; after worker [i] has
    taken the task, worker [j], which has passed its test, locks the queue
    and calls [front] on the empty queue, which is undefined. *)
Theorem emptiness_test_goes_stale (w : World) (i j : nat) (task : Task) :
  i ≠ j →
  threads w !! i = Some AtLoopTest →
  threads w !! j = Some AtLoopTest →
  piQueue (taskList w) = [task] →
  queueMutex (taskList w) = None →
  ∃ w1 w2,
    run [i; j] w = Some w1
    ∧ threads w1 !! i = Some AtProgress
    ∧ threads w1 !! j = Some AtProgress
    ∧ run [i; i; i; i; i] w1 = Some w2
    ∧ threads w2 !! i = Some (AtCompute task)
    ∧ threads w2 !! j = Some AtProgress
    ∧ TaskList.isEmpty (taskList w2) = true
    ∧ queueMutex (taskList w2) = None
    ∧ run [j; j; j] w2 = None.
Proof.
  intros Hne Hi Hj Hq Hm. destruct w as [[q m] t out ths]. simpl in *. subst.
  assert (i < length ths)%nat as Hli by eauto using lookup_lt_Some.
  assert (j < length ths)%nat as Hlj by eauto using lookup_lt_Some.
  rewrite <- (list_insert_id ths j AtLoopTest) by done.
  rewrite <- (list_insert_id (<[j := _]> ths) i AtLoopTest)
    by (by rewrite list_lookup_insert_ne).
  eexists _, _. split_and!.
  - step_first. step_second. reflexivity.
  - by apply lookup_first.
  - by apply lookup_second.
  - do 5 step_first. reflexivity.
  - by apply lookup_first.
  - by apply lookup_second.
  - done.
  - done.
  - do 3 step_second. done.
Qed.

(** C8: with two or more workers and at least one task, there is an
    interleaving in which a worker does not reach the end of its loop:
    worker 0 takes all tasks but the last, both workers then pass the loop
    test, worker 0 takes the last task, and worker 1 executes [front] on
    the empty queue.  The run has undefined behaviour; worker 1 has not
    observed an empty queue and the join is not reached. *)
Theorem pool_run_can_go_wrong (numDigitsPie hc : Z) :
  2 ≤ numDigitsPie → 2 ≤ to_int hc →
  main_with numDigitsPie hc
            (solo 0 (Z.to_nat (numDigitsPie - 2)) ++ stale_test 0 1)
  = UndefinedBehaviour.
Proof.
  intros HN Hhc. unfold main_with.
  destruct (launch_eq numDigitsPie hc) as [out ->]; [lia|].
  set (ths := replicate (Z.to_nat (to_int hc)) AtLoopTest).
  assert (ths !! 0%nat = Some AtLoopTest) as H0
    by (apply lookup_replicate_2; lia).
  assert (ths !! 1%nat = Some AtLoopTest) as H1
    by (apply lookup_replicate_2; lia).
  replace (numDigitsPie - 1) with ((numDigitsPie - 2) + 1) by lia.
  rewrite seqZ_app, fmap_app by lia.
  rewrite run_app.
  destruct (solo_drains 0 (Build_Task <$> seqZ 1 (numDigitsPie - 2))
              (Build_Task <$> seqZ (1 + (numDigitsPie - 2)) 1) ∅ out ths H0)
    as (pm' & out' & Hrun).
  rewrite length_fmap, length_seqZ in Hrun. rewrite Hrun.
  unfold mbind, option_bind.
  by rewrite (stale_test_undefined _ 0 1 {| id := 1 + (numDigitsPie - 2) |}).
Qed.

(** With one worker the run is sequential: it exits after one iteration per
    task and a last loop test. *)
Lemma one_worker_exits (numDigitsPie : Z) :
  ∃ out, main_with numDigitsPie 1
           (solo 0 (Z.to_nat (numDigitsPie - 1)) ++ [0%nat]) = Exits out.
Proof.
  unfold main_with.
  destruct (launch_eq numDigitsPie 1) as [out ->]; [done|].
  rewrite run_app.
  destruct (solo_drains 0 (Build_Task <$> seqZ 1 (numDigitsPie - 1)) [] ∅ out
              [AtLoopTest] eq_refl) as (pm' & out' & Hrun).
  rewrite app_nil_r, length_fmap, length_seqZ in Hrun.
  change (replicate (Z.to_nat (to_int 1)) AtLoopTest) with [AtLoopTest].
  rewrite Hrun. simpl. by eexists.
Qed.


(** When the workers have all returned, and there is at least one, the
    table holds the digit of every index queued and nothing else. *)
Lemma completed_table numDigitsPie w :
  pool_inv numDigitsPie w → joined w = true → threads w ≠ [] →
  ∀ k, pieMap (pieTable w) !! k
       = if decide (1 ≤ k < numDigitsPie)
         then Some (computePi {| id := k |}) else None.
Proof.
  intros [_ _ Hheld _ Hstored Hreturned] Hjoined Hthreads k.
  assert (piQueue (taskList w) = []) as Hq.
  { destruct (threads w) as [|pc ths] eqn:Hths; [done|].
    assert (pc = Returned) as ->
      by (apply (joined_returned w 0 pc Hjoined); by rewrite Hths).
    by apply (Hreturned 0%nat). }
  assert (1 ≤ k < numDigitsPie ↔ is_Some (pieMap (pieTable w) !! k)) as Hk.
  { rewrite Hheld. unfold held. rewrite Hq. split; [|auto].
    intros [Hin|[(i & pc & Hi & Hfl)|?]]; [|exfalso|done].
    - by apply elem_of_nil in Hin.
    - by rewrite (joined_returned w i pc Hjoined Hi) in Hfl. }
  case_decide as Hrange.
  - apply Hk in Hrange as [v Hv]. rewrite Hv. f_equal. by apply Hstored.
  - destruct (pieMap (pieTable w) !! k) as [v|] eqn:Hv; [|done].
    destruct Hrange. apply Hk. by eexists.
Qed.

(** C2, as the code has it: the queue is loaded with the indices below
    [numDigitsPie], so when a pool of at least one worker has run to
    completion the table has an entry for each index from 1 to
    [numDigitsPie - 1] and for no other: [numDigitsPie - 1] entries, and none
    for index [numDigitsPie]. *)
Theorem completed_run_entries (numDigitsPie hc : Z) (sched : list nat)
    (w0 w : World) :
  1 ≤ to_int hc →
  launch numDigitsPie hc = Some w0 →
  run sched w0 = Some w →
  joined w = true →
  dom (pieMap (pieTable w)) = list_to_set (seqZ 1 (numDigitsPie - 1))
  ∧ size (pieMap (pieTable w)) = Z.to_nat (numDigitsPie - 1)
  ∧ pieMap (pieTable w) !! numDigitsPie = None.
Proof.
  intros Hhc Hlaunch Hrun Hjoined.
  assert (∀ k, pieMap (pieTable w) !! k
               = if decide (1 ≤ k < numDigitsPie)
                 then Some (computePi {| id := k |}) else None) as Htable.
  { apply completed_table; [|done|].
    - eapply run_preserves_inv; [|done]. by eapply launch_inv.
    - apply launch_Some in Hlaunch as (_ & _ & _ & Hths).
      apply run_threads_length in Hrun. rewrite Hths, length_replicate in Hrun.
      intros Hnil. rewrite Hnil in Hrun. simpl in Hrun. lia. }
  assert (dom (pieMap (pieTable w)) = list_to_set (seqZ 1 (numDigitsPie - 1)))
    as Hdom.
  { apply set_eq. intros k.
    rewrite elem_of_dom, elem_of_list_to_set, elem_of_seqZ, Htable.
    case_decide; split; try lia; done. }
  split_and!; [done| |].
  - rewrite <- size_dom, Hdom, size_list_to_set by apply NoDup_seqZ.
    apply length_seqZ.
  - rewrite Htable. by rewrite decide_False by lia.
Qed.

(** X13: The table of a completed run does not depend on the interleaving. *)
Corollary completed_runs_agree (numDigitsPie hc : Z) (sched1 sched2 : list nat)
    (w0 w1 w2 : World) :
  1 ≤ to_int hc →
  launch numDigitsPie hc = Some w0 →
  run sched1 w0 = Some w1 → joined w1 = true →
  run sched2 w0 = Some w2 → joined w2 = true →
  pieMap (pieTable w1) = pieMap (pieTable w2).
Proof.
  intros Hhc Hlaunch Hrun1 Hjoined1 Hrun2 Hjoined2.
  assert (∀ sched w, run sched w0 = Some w → joined w = true →
    ∀ k, pieMap (pieTable w) !! k
         = if decide (1 ≤ k < numDigitsPie)
           then Some (computePi {| id := k |}) else None) as Htable.
  { intros sched w Hrun Hjoined. apply completed_table; [|done|].
    - eapply run_preserves_inv; [|done]. by eapply launch_inv.
    - apply launch_Some in Hlaunch as (_ & _ & _ & Hths).
      apply run_threads_length in Hrun. rewrite Hths, length_replicate in Hrun.
      intros Hnil. rewrite Hnil in Hrun. simpl in Hrun. lia. }
  apply map_eq. intros k.
  by rewrite (Htable _ _ Hrun1 Hjoined1), (Htable _ _ Hrun2 Hjoined2).
Qed.

(** Whatever the interleaving, a run that exits has printed, after the
    progress marks, "3." and the digits computed for the indices in
    ascending order. *)
Corollary exits_output (numDigitsPie hc : Z) (sched : list nat) (out : string) :
  1 ≤ to_int hc →
  (∀ k, 1 ≤ k < numDigitsPie → computePi {| id := k |} ≤ 9) →
  main_with numDigitsPie hc sched = Exits out →
  ∃ progress,
    out = progress +:+ newline +:+ "3."
          +:+ digit_string ((λ k, computePi {| id := k |})
                              <$> seqZ 1 (numDigitsPie - 1))
          +:+ newline.
Proof.
  intros Hhc Hdigit. unfold main_with.
  destruct (launch numDigitsPie hc) as [w0|] eqn:Hlaunch; [|done].
  destruct (run sched w0) as [w|] eqn:Hrun; [|done].
  destruct (joined w) eqn:Hjoined; [|done].
  intros [= <-]. exists (cout w).
  rewrite (render_stored _ (λ k, computePi {| id := k |})); [done|].
  intros k Hk. split.
  - rewrite completed_table with (numDigitsPie := numDigitsPie).
    + by rewrite decide_True.
    + eapply run_preserves_inv; [|done]. by eapply launch_inv.
    + done.
    + apply launch_Some in Hlaunch as (_ & _ & _ & Hths).
      apply run_threads_length in Hrun. rewrite Hths, length_replicate in Hrun.
      intros Hnil. rewrite Hnil in Hrun. simpl in Hrun. lia.
  - split; [apply to_unsigned_range | by apply Hdigit].
Qed.

Lemma run_no_threads sched w : threads w = [] → run sched w = Some w.
Proof.
  intros Hths. induction sched as [|i sched IH]; simpl; [done|].
  unfold thread_step. by rewrite Hths.
Qed.

(** C6, as the code has it: the pool has one worker per hardware thread
    reported, the value being read once into [numThreads]; there is no
    fallback, so when 0 is reported (the value could not be determined)
    the pool has no worker, the join is immediate and no task is taken. *)
Theorem launch_pool_size (numDigitsPie hc : Z) :
  0 ≤ hc < 2 ^ 31 →
  ∃ w0, launch numDigitsPie hc = Some w0
        ∧ threads w0 = replicate (Z.to_nat hc) AtLoopTest
        ∧ (hc = 0 →
           threads w0 = [] ∧ joined w0 = true
           ∧ ∀ sched, run sched w0 = Some w0).
Proof.
  intros Hhc.
  assert (to_int hc = hc) as Hint by (apply to_int_small; lia).
  destruct (launch_eq numDigitsPie hc) as [out Hlaunch]; [lia|].
  rewrite Hint in Hlaunch. eexists. split; [done|]. split; [done|].
  intros ->. split_and!; [done..|].
  intros sched. by apply run_no_threads.
Qed.


(** ** Termination and progress *)

Lemma sum_rank_goto (ths : list Pc) i pc0 pc' :
  ths !! i = Some pc0 →
  (sum_list (rank <$> <[i := pc']> ths) + rank pc0
   = sum_list (rank <$> ths) + rank pc')%nat.
Proof.
  revert i. induction ths as [|pc ths IH]; intros [|i] Hi; simplify_eq/=.
  - lia.
  - specialize (IH i Hi). lia.
Qed.

(** Every statement executed lowers [steps_left]. *)
Lemma step_decreases i w w' :
  thread_step i w = Next w' → (steps_left w' < steps_left w)%nat.
Proof.
  unfold thread_step. intros Hstep.
  destruct (threads w !! i) as [pc0|] eqn:Hpc; [|done].
  unfold steps_left, goto, TaskList.lock, TaskList.unlock, TaskList.getTask,
    TaskList.pop, TaskList.isEmpty, PieTable.lock, PieTable.unlock in *.
  destruct pc0; repeat case_match; simplify_eq; simpl;
    match goal with
    | |- context [<[i := ?pc']> _] =>
        pose proof (sum_rank_goto _ _ _ pc' Hpc) as Hsum; simpl in Hsum
    end;
    repeat match goal with H : piQueue _ = _ |- _ => rewrite H end;
    simpl; lia.
Qed.

Lemma run_steps_bounded sched w :
  (steps_taken sched w ≤ steps_left w)%nat.
Proof.
  revert w. induction sched as [|i sched IH]; intros w; simpl; [lia|].
  destruct (thread_step i w) as [w'| |] eqn:Hstep; [|done|lia].
  apply step_decreases in Hstep. specialize (IH w'). lia.
Qed.

Lemma launch_lock_inv numDigitsPie hc w0 :
  launch numDigitsPie hc = Some w0 → lock_inv w0.
Proof.
  intros (_ & Hq & Ht & Hthreads)%launch_Some.
  split.
  - intros i pc. rewrite Hthreads. by intros [-> _]%lookup_replicate.
  - intros i. by rewrite Hq, queueMutex_load.
  - intros i. by rewrite Ht.
Qed.

(** Ownership of the mutexes is kept by every statement: a thread is
    between a lock and its unlock exactly when it holds the mutex. *)
Lemma step_preserves_lock_inv i w w' :
  lock_inv w → thread_step i w = Next w' → lock_inv w'.
Proof.
  intros [Howner Hqowned Htowned] Hstep.
  unfold thread_step in Hstep.
  destruct (threads w !! i) as [pc0|] eqn:Hpc; [|done].
  assert (is_Some (threads w !! i)) as Hsome by eauto.
  assert (i < length (threads w))%nat as Hlen by eauto using lookup_lt_Some.
  pose proof (Howner i _ Hpc) as Howner_i.
  pose proof (Hqowned i) as Hqowned_i.
  pose proof (Htowned i) as Htowned_i.
  unfold goto, TaskList.lock, TaskList.unlock, TaskList.getTask, TaskList.pop,
    TaskList.isEmpty, PieTable.lock, PieTable.unlock in Hstep.
  destruct pc0; simpl in *; repeat case_match; simplify_eq.
  all: split; simpl; rewrite ?insertValue_hashMutex.
  all: try (intros j pc Hj Hsec;
    apply (lookup_goto _ _ _ _ _ Hsome) in Hj as [[-> ->]|[Hne Hj]];
    [try done; simpl in *; try (specialize (Howner_i eq_refl)); congruence
    | pose proof (Howner j pc Hj Hsec); simpl in *; congruence]).
  all: try (intros j Hm;
    first
      [ discriminate Hm
      | destruct (decide (j = i)) as [->|Hne];
        [ eexists; split; [by apply list_lookup_insert_eq|];
          first
            [ done
            | destruct (Hqowned_i Hm) as (pc & Hpc' & Hsec); by simplify_eq
            | destruct (Htowned_i Hm) as (pc & Hpc' & Hsec); by simplify_eq ]
        | first
            [ exfalso; congruence
            | destruct (Hqowned j) as (pc & Hj & Hsec); [congruence|];
              exists pc; split; [by rewrite list_lookup_insert_ne|done]
            | destruct (Htowned j) as (pc & Hj & Hsec); [congruence|];
              exists pc; split; [by rewrite list_lookup_insert_ne|done] ] ] ]).
Qed.

Lemma not_joined_thread w :
  joined w = false → ∃ i pc, threads w !! i = Some pc ∧ pc ≠ Returned.
Proof.
  unfold joined. induction (threads w) as [|pc ths IH]; [done|]. simpl.
  intros [Hpc|Hths]%andb_false_iff.
  - exists 0%nat, pc. split; [done|]. by intros ->.
  - destruct (IH Hths) as (i & pc' & Hi & Hpc'). by exists (S i), pc'.
Qed.

(** While a thread has not returned, some thread can execute its next
    statement: a thread that waits for a mutex waits for a thread that can
    move. *)
Lemma pool_progress w :
  lock_inv w → joined w = false → ∃ i, thread_step i w ≠ Stuck.
Proof.
  intros [_ Hqowned Htowned] Hjoined.
  destruct (not_joined_thread w Hjoined) as (i & pc & Hi & Hpc).
  assert (∀ j pcj, threads w !! j = Some pcj →
            in_queue_section pcj = true ∨ in_table_section pcj = true →
            thread_step j w ≠ Stuck) as Hmoves.
  { intros j pcj Hj Hsec. unfold thread_step, goto. rewrite Hj.
    destruct pcj, Hsec; simplify_eq/=; by repeat case_match. }
  destruct pc;
    try (exists i; unfold thread_step, goto; rewrite Hi; by repeat case_match).
  - (* waiting for the queue *)
    destruct (queueMutex (taskList w)) as [j|] eqn:Hm.
    + destruct (Hqowned j eq_refl) as (pcj & Hj & Hsec). exists j. eauto.
    + exists i. unfold thread_step, goto, TaskList.lock. by rewrite Hi, Hm.
  - (* waiting for the table *)
    destruct (hashMutex (pieTable w)) as [j|] eqn:Hm.
    + destruct (Htowned j eq_refl) as (pcj & Hj & Hsec). exists j. eauto.
    + exists i. unfold thread_step, goto, PieTable.lock. by rewrite Hi, Hm.
Qed.

(** Under the invariants the only step of [thread_step] that can be
    [Undefined] is the [front] of a worker that finds the queue empty. *)
Lemma undefined_only_front numDigitsPie i w :
  pool_inv numDigitsPie w → lock_inv w → thread_step i w = Undefined →
  threads w !! i = Some AtGetTask ∧ piQueue (taskList w) = [].
Proof.
  intros [Howner Hfront _ _ _ _] [Htowner _ _].
  unfold thread_step, goto, TaskList.lock, TaskList.unlock, TaskList.getTask,
    TaskList.pop, PieTable.lock, PieTable.unlock.
  destruct (threads w !! i) as [pc|] eqn:Hpc; [|done].
  pose proof (Howner i _ Hpc) as Howner_i.
  pose proof (Htowner i _ Hpc) as Htowner_i.
  pose proof (Hfront i) as Hfront_i.
  destruct pc; simpl in *; repeat case_match; try done; intros _.
  all: try (specialize (Howner_i eq_refl)); try (specialize (Htowner_i eq_refl));
    try (by specialize (Hfront _ _ Hpc)); by simplify_eq/=.
Qed.

Lemma run_preserves_lock_inv sched w w' :
  lock_inv w → run sched w = Some w' → lock_inv w'.
Proof.
  revert w. induction sched as [|i sched IH]; intros w Hinv Hrun; simpl in Hrun.
  - by simplify_eq.
  - destruct (thread_step i w) as [w1| |] eqn:Hstep; [|by apply (IH w)|done].
    apply (IH w1); [|done]. by apply (step_preserves_lock_inv i w).
Qed.

Lemma steps_left_launch numDigitsPie hc w0 :
  launch numDigitsPie hc = Some w0 →
  steps_left w0
  = (10 * Z.to_nat (numDigitsPie - 1) + 5 * Z.to_nat (to_int hc))%nat.
Proof.
  intros (_ & Hq & _ & Hths)%launch_Some. unfold steps_left.
  rewrite Hq, Hths, piQueue_load, length_fmap, length_seqZ.
  assert (∀ n, sum_list (rank <$> replicate n AtLoopTest) = (5 * n)%nat)
    as Hsum.
  { induction n as [|n IH]; [done|].
    change (sum_list (rank <$> replicate (S n) AtLoopTest))
      with (5 + sum_list (rank <$> replicate n AtLoopTest))%nat.
    rewrite IH. lia. }
  by rewrite Hsum.
Qed.

(** An interleaving of the pool without undefined behaviour executes at
    most ten statements per task and five more per worker; where it has
    brought the pool, either all workers have returned or some worker can
    execute its next statement, and a step of [thread_step] can only be
    [Undefined] by being the [front] of a worker that finds the queue
    empty. *)
Lemma pool_run_ends numDigitsPie hc sched w0 w :
  launch numDigitsPie hc = Some w0 →
  run sched w0 = Some w →
  (steps_taken sched w0
   ≤ 10 * Z.to_nat (numDigitsPie - 1) + 5 * Z.to_nat (to_int hc))%nat
  ∧ (joined w = true ∨ ∃ i, thread_step i w ≠ Stuck)
  ∧ (∀ i, thread_step i w = Undefined →
          threads w !! i = Some AtGetTask ∧ piQueue (taskList w) = []).
Proof.
  intros Hlaunch Hrun.
  assert (pool_inv numDigitsPie w) as Hinv
    by (eapply run_preserves_inv; [by eapply launch_inv | done]).
  assert (lock_inv w) as Hlock
    by (eapply run_preserves_lock_inv; [by eapply launch_lock_inv | done]).
  split_and!.
  - rewrite <- (steps_left_launch _ _ _ Hlaunch). apply run_steps_bounded.
  - destruct (joined w) eqn:Hjoined; [by left|].
    right. by apply pool_progress.
  - intros i. by apply (undefined_only_front numDigitsPie).
Qed.


(** ** Every index is at one place *)

Lemma sum_list_goto (f : Pc → nat) (ths : list Pc) i pc0 pc' :
  ths !! i = Some pc0 →
  (sum_list (f <$> <[i := pc']> ths) + f pc0
   = sum_list (f <$> ths) + f pc')%nat.
Proof.
  revert i. induction ths as [|pc ths IH]; intros [|i] Hi; simplify_eq/=.
  - lia.
  - specialize (IH i Hi). lia.
Qed.

Lemma occurrences_load (indices : list Z) k :
  NoDup indices →
  length (filter (λ task, id task = k) (Build_Task <$> indices))
  = if decide (k ∈ indices) then 1%nat else 0%nat.
Proof.
  induction 1 as [|i indices Hi Hnodup IH]; [done|].
  rewrite fmap_cons, filter_cons. simpl.
  destruct (decide (i = k)) as [->|Hne].
  - simpl. rewrite IH. rewrite decide_False by done.
    by rewrite decide_True by left.
  - rewrite IH. destruct (decide (k ∈ indices)) as [Hin|Hnin].
    + by rewrite decide_True by (by right).
    + rewrite decide_False; [done|]. intros [?|?]%elem_of_cons; by simplify_eq.
Qed.

Lemma launch_once_inv numDigitsPie hc w0 :
  launch numDigitsPie hc = Some w0 → once_inv numDigitsPie w0.
Proof.
  intros (_ & Hq & Ht & Hths)%launch_Some k. unfold occurrences.
  rewrite Hq, Ht, Hths, piQueue_load, occurrences_load by apply NoDup_seqZ.
  assert (∀ n, sum_list (holds k <$> replicate n AtLoopTest) = 0%nat)
    as ->.
  { induction n as [|n IH]; [done|].
    change (sum_list (holds k <$> replicate (S n) AtLoopTest))
      with (sum_list (holds k <$> replicate n AtLoopTest)).
    exact IH. }
  simpl. rewrite lookup_empty.
  rewrite (decide_False (P := is_Some None)) by (by intros [? [=]]).
  destruct (decide (1 ≤ k < numDigitsPie)) as [Hk|Hk].
  - by rewrite decide_True by (apply elem_of_seqZ; lia).
  - by rewrite decide_False by (rewrite elem_of_seqZ; lia).
Qed.

Lemma step_preserves_once_inv numDigitsPie i w w' :
  pool_inv numDigitsPie w → once_inv numDigitsPie w →
  thread_step i w = Next w' → once_inv numDigitsPie w'.
Proof.
  intros [_ Hfront _ _ _ _] Honce Hstep.
  unfold thread_step in Hstep.
  destruct (threads w !! i) as [pc0|] eqn:Hpc; [|done].
  pose proof (Hfront i) as Hfront_i.
  unfold goto, TaskList.lock, TaskList.unlock, TaskList.getTask, TaskList.pop,
    TaskList.isEmpty, PieTable.lock, PieTable.unlock in Hstep.
  destruct pc0; simpl in *; repeat case_match; simplify_eq.
  all: intros k; specialize (Honce k); unfold occurrences in *; simpl.
  all: match goal with
       | |- context [<[_ := ?pc']> _] =>
           pose proof (sum_list_goto (holds k) _ _ _ pc' Hpc) as Hsum
       end.
  all: repeat match goal with
         | H : piQueue _ = _ |- _ => rewrite H in *
         end.
  all: unfold holds at 2 4 in Hsum; simpl in Hsum.
  all: try lia.
  - (* the pop: the task leaves the queue for the locals of the thread *)
    specialize (Hfront_i _ Hpc). simpl in Hfront_i. simplify_eq.
    rewrite filter_cons in Honce.
    match goal with
    | H : piQueue _ = ?task :: _ |- _ =>
        destruct (decide (id task = k)) as [Heq|Hne]; simpl in Honce
    end.
    + rewrite decide_True in Hsum by congruence. lia.
    + rewrite decide_False in Hsum by congruence. lia.
  - (* the insertion: the index leaves the locals for the table *)
    destruct (decide (pieIndex = k)) as [->|Hne].
    + rewrite decide_True in Hsum by done.
      rewrite (decide_True (P := is_Some (pieMap (PieTable.insertValue _ _ _) !! k)))
        by (rewrite insertValue_lookup; by eexists).
      destruct (decide (is_Some (pieMap (pieTable w) !! k)));
        destruct (decide (1 ≤ k < numDigitsPie)); lia.
    + rewrite decide_False in Hsum by congruence.
      rewrite insertValue_lookup_ne by done. lia.
Qed.

Lemma run_preserves_once_inv numDigitsPie sched w w' :
  pool_inv numDigitsPie w → once_inv numDigitsPie w →
  run sched w = Some w' → once_inv numDigitsPie w'.
Proof.
  revert w. induction sched as [|i sched IH]; intros w Hinv Honce Hrun;
    simpl in Hrun.
  - by simplify_eq.
  - destruct (thread_step i w) as [w1| |] eqn:Hstep; [|by apply (IH w)|done].
    apply (IH w1); [| |done].
    + by apply (step_preserves_inv _ i w).
    + by apply (step_preserves_once_inv _ i w).
Qed.

(** X10: In every world an interleaving reaches, each index from 1 to
    [numDigitsPie - 1] is at exactly one place: queued once, or taken by
    one thread, or stored; no other index is anywhere.  No task is lost,
    and none is taken twice. *)
Theorem each_index_once (numDigitsPie hc : Z) (sched : list nat)
    (w0 w : World) (k : Z) :
  launch numDigitsPie hc = Some w0 →
  run sched w0 = Some w →
  occurrences w k = if decide (1 ≤ k < numDigitsPie) then 1%nat else 0%nat.
Proof.
  intros Hlaunch Hrun.
  apply (run_preserves_once_inv numDigitsPie sched w0); [| |done].
  - by eapply launch_inv.
  - by eapply launch_once_inv.
Qed.

Lemma holds_le_sum (ths : list Pc) i pc k :
  ths !! i = Some pc → (holds k pc ≤ sum_list (holds k <$> ths))%nat.
Proof.
  revert i. induction ths as [|pc' ths IH]; intros [|i] Hi; simplify_eq/=.
  - lia.
  - specialize (IH i Hi). lia.
Qed.

(** X11: A worker that is about to insert finds no entry for its index: the
    insertions of the pool never meet an existing entry, so every digit
    computed is stored. *)
Theorem insert_finds_no_entry (numDigitsPie hc : Z) (sched : list nat)
    (w0 w : World) (i : nat) (pieIndex pieNumber : Z) :
  launch numDigitsPie hc = Some w0 →
  run sched w0 = Some w →
  threads w !! i = Some (AtInsert pieIndex pieNumber) →
  pieMap (pieTable w) !! pieIndex = None
  ∧ pieMap (PieTable.insertValue pieIndex (to_unsigned pieNumber) (pieTable w))
      !! pieIndex = Some (computePi {| id := pieIndex |}).
Proof.
  intros Hlaunch Hrun Hi.
  assert (pieMap (pieTable w) !! pieIndex = None) as Hnone.
  { assert (once_inv numDigitsPie w) as Honce.
    { apply (run_preserves_once_inv numDigitsPie sched w0); [| |done].
      - by eapply launch_inv.
      - by eapply launch_once_inv. }
    specialize (Honce pieIndex). unfold occurrences in Honce.
    pose proof (holds_le_sum _ _ _ pieIndex Hi) as Hle.
    unfold holds at 1 in Hle. simpl in Hle. rewrite decide_True in Hle by done.
    destruct (pieMap (pieTable w) !! pieIndex) as [v|] eqn:Hv; [|done].
    rewrite (decide_True (P := is_Some (Some v))) in Honce by (by eexists).
    destruct (decide (1 ≤ pieIndex < numDigitsPie)); lia. }
  split; [done|].
  rewrite insertValue_lookup, Hnone. simpl. f_equal.
  assert (pool_inv numDigitsPie w) as [_ _ _ Hcarries _ _]
    by (eapply run_preserves_inv; [by eapply launch_inv | done]).
  apply (Hcarries i _ Hi).
Qed.


(** ** Mutual exclusion, progress and the order of the tasks *)

Lemma reachable_inv numDigitsPie hc sched w0 w :
  launch numDigitsPie hc = Some w0 → run sched w0 = Some w →
  pool_inv numDigitsPie w ∧ lock_inv w.
Proof.
  intros Hlaunch Hrun. split.
  - eapply run_preserves_inv; [by eapply launch_inv | done].
  - eapply run_preserves_lock_inv; [by eapply launch_lock_inv | done].
Qed.

(** X5: At most one thread is between [taskList.lock()] and
    [taskList.unlock()], and at most one between [pieTable.lock()] and
    [pieTable.unlock()]. *)
Theorem pool_exclusion (numDigitsPie hc : Z) (sched : list nat)
    (w0 w : World) (i j : nat) (pci pcj : Pc) :
  launch numDigitsPie hc = Some w0 →
  run sched w0 = Some w →
  threads w !! i = Some pci → threads w !! j = Some pcj →
  (in_queue_section pci = true → in_queue_section pcj = true → i = j)
  ∧ (in_table_section pci = true → in_table_section pcj = true → i = j).
Proof.
  intros Hlaunch Hrun Hi Hj.
  destruct (reachable_inv _ _ _ _ _ Hlaunch Hrun)
    as [[Hqowner _ _ _ _ _] [Htowner _ _]].
  split; intros Hseci Hsecj.
  - pose proof (Hqowner i _ Hi Hseci). pose proof (Hqowner j _ Hj Hsecj).
    congruence.
  - pose proof (Htowner i _ Hi Hseci). pose proof (Htowner j _ Hj Hsecj).
    congruence.
Qed.

Lemma run_steps_left sched w w' :
  run sched w = Some w' →
  (steps_taken sched w + steps_left w' ≤ steps_left w)%nat.
Proof.
  revert w. induction sched as [|i sched IH]; intros w Hrun; simpl in *.
  - simplify_eq. lia.
  - destruct (thread_step i w) as [w1| |] eqn:Hstep; [|by apply IH|done].
    apply step_decreases in Hstep. specialize (IH w1 Hrun). lia.
Qed.

(** X6: An interleaving without undefined behaviour executes at most ten
    statements per task loaded and five more per worker; the statements
    executed so far and the bound [steps_left] on those still to come
    never add up to more.  A run of the pool that stays defined does not
    go on for ever; nothing is said of a run after a [front] on the empty
    queue. *)
Theorem defined_run_steps_bounded (numDigitsPie hc : Z) (sched : list nat)
    (w0 w : World) :
  launch numDigitsPie hc = Some w0 →
  run sched w0 = Some w →
  (steps_taken sched w0 + steps_left w
   ≤ 10 * Z.to_nat (numDigitsPie - 1) + 5 * Z.to_nat (to_int hc))%nat.
Proof.
  intros Hlaunch Hrun. rewrite <- (steps_left_launch _ _ _ Hlaunch).
  by apply run_steps_left.
Qed.

(** X7: The pool does not deadlock: as long as a worker has not returned, some
    worker can execute its next statement. *)
Theorem pool_deadlock_free (numDigitsPie hc : Z) (sched : list nat)
    (w0 w : World) :
  launch numDigitsPie hc = Some w0 →
  run sched w0 = Some w →
  joined w = false →
  ∃ i, thread_step i w ≠ Stuck.
Proof.
  intros Hlaunch Hrun Hjoined.
  destruct (reachable_inv _ _ _ _ _ Hlaunch Hrun) as [_ Hlock].
  by apply pool_progress.
Qed.

(** X8: The lock discipline of the workers, in every state an
    interleaving reaches without undefined behaviour.  A thread about to
    execute [front], [pop] or [taskList.unlock()] holds the queue mutex; a
    thread about to execute [insertValue] or [pieTable.unlock()] holds the
    table mutex: no unlock is made by a thread that does not hold the
    mutex.  A thread about to [pop] finds at the front of the queue the
    task it has read with [front], and the [pop] removes that task.  A
    thread at the loop test does not hold the queue mutex: [isEmpty] reads
    the queue unprotected, and is the only access to the queue that
    does. *)
Theorem lock_discipline (numDigitsPie hc : Z) (sched : list nat)
    (w0 w : World) (i : nat) (pc : Pc) :
  launch numDigitsPie hc = Some w0 →
  run sched w0 = Some w →
  threads w !! i = Some pc →
  (in_queue_section pc = true → queueMutex (taskList w) = Some i)
  ∧ (in_table_section pc = true → hashMutex (pieTable w) = Some i)
  ∧ (∀ taskTemp, pc = AtPop taskTemp →
       ∃ rest, piQueue (taskList w) = taskTemp :: rest
               ∧ TaskList.pop (taskList w)
                 = Some {| piQueue := rest; queueMutex := Some i |})
  ∧ (pc = AtLoopTest → queueMutex (taskList w) ≠ Some i).
Proof.
  intros Hlaunch Hrun Hi.
  destruct (reachable_inv _ _ _ _ _ Hlaunch Hrun)
    as [[Hqowner Hfront _ _ _ _] [Htowner Hqowned _]].
  split_and!.
  - by apply Hqowner.
  - by apply Htowner.
  - intros taskTemp ->.
    pose proof (Hqowner i _ Hi eq_refl) as Hmutex.
    pose proof (Hfront i _ Hi) as Hhead.
    unfold TaskList.pop.
    destruct (piQueue (taskList w)) as [|task rest]; [done|].
    simpl in Hhead. injection Hhead as ->.
    exists rest. by rewrite Hmutex.
  - intros -> Hmutex.
    destruct (Hqowned i Hmutex) as (pc' & Hi' & Hsec).
    rewrite Hi in Hi'. by injection Hi' as <-.
Qed.

(** X23: the loop test races with the removal.  From a state with two
    workers at the loop test, a task queued and the queue mutex free,
    worker [i] comes to hold the mutex with [pop] as its next statement
    while worker [j] is still at its loop test.  Both statements can then
    be executed, in either order: [pop] changes the queue under the mutex
    and [isEmpty] reads it without the mutex, so no lock orders the two
    accesses. *)
Theorem isEmpty_races_with_pop (w : World) (i j : nat) (task : Task)
    (rest : list Task) :
  i ≠ j →
  threads w !! i = Some AtLoopTest →
  threads w !! j = Some AtLoopTest →
  piQueue (taskList w) = task :: rest →
  queueMutex (taskList w) = None →
  ∃ w1,
    run [i; i; i; i] w = Some w1
    ∧ threads w1 !! i = Some (AtPop task)
    ∧ threads w1 !! j = Some AtLoopTest
    ∧ queueMutex (taskList w1) = Some i
    ∧ (∃ w2, thread_step i w1 = Next w2
             ∧ piQueue (taskList w2) = rest
             ∧ piQueue (taskList w2) ≠ piQueue (taskList w1))
    ∧ (∃ w3, thread_step j w1 = Next w3
             ∧ threads w3 !! j = Some AtProgress
             ∧ threads w3 !! i = Some (AtPop task)).
Proof.
  intros Hne Hi Hj Hq Hm. destruct w as [[q m] t out ths]. simpl in *. subst.
  assert (i < length ths)%nat as Hli by eauto using lookup_lt_Some.
  assert (j < length ths)%nat as Hlj by eauto using lookup_lt_Some.
  rewrite <- (list_insert_id ths j AtLoopTest) by done.
  rewrite <- (list_insert_id (<[j := _]> ths) i AtLoopTest)
    by (by rewrite list_lookup_insert_ne).
  eexists. split_and!.
  - do 4 step_first. reflexivity.
  - by apply lookup_first.
  - by apply lookup_second.
  - done.
  - eexists. split_and!.
    + unfold thread_step at 1. cbn [threads taskList pieTable cout].
      rewrite lookup_first by done. reflexivity.
    + done.
    + cbn [goto taskList piQueue]. intros Heq.
      apply (f_equal length) in Heq. simpl in Heq. lia.
  - eexists. split_and!.
    + unfold thread_step at 1. cbn [threads taskList pieTable cout].
      rewrite lookup_second by done. reflexivity.
    + unfold goto. cbn [threads].
      apply list_lookup_insert_eq. by rewrite !length_insert.
    + unfold goto. cbn [threads].
      rewrite list_lookup_insert_ne by done. by apply lookup_first.
Qed.

Lemma step_queue i w w' :
  thread_step i w = Next w' →
  piQueue (taskList w') = piQueue (taskList w)
  ∨ ∃ task, piQueue (taskList w) = task :: piQueue (taskList w').
Proof.
  unfold thread_step, goto, TaskList.lock, TaskList.unlock, TaskList.getTask,
    TaskList.pop, TaskList.isEmpty, PieTable.lock, PieTable.unlock.
  intros Hstep. repeat case_match; simplify_eq; simpl; eauto.
Qed.

(** X12: The workers take the tasks in ascending order of the index: the queue
    always holds the indices from some [m] up to [numDigitsPie - 1], in
    this order. *)
Theorem queue_ascending (numDigitsPie hc : Z) (sched : list nat)
    (w0 w : World) :
  launch numDigitsPie hc = Some w0 →
  run sched w0 = Some w →
  ∃ m, 1 ≤ m
       ∧ piQueue (taskList w) = Build_Task <$> seqZ m (numDigitsPie - m).
Proof.
  intros Hlaunch Hrun.
  assert (∃ m, 1 ≤ m ∧ piQueue (taskList w0)
                       = Build_Task <$> seqZ m (numDigitsPie - m)) as Hstart.
  { apply launch_Some in Hlaunch as (_ & -> & _ & _).
    exists 1. split; [done|]. apply piQueue_load. }
  clear Hlaunch. revert w0 Hrun Hstart.
  induction sched as [|i sched IH]; intros w0 Hrun Hstart; simpl in Hrun.
  - by simplify_eq.
  - destruct (thread_step i w0) as [w1| |] eqn:Hstep; [|by apply (IH w0)|done].
    apply (IH w1); [done|].
    destruct Hstart as (m & Hm & Hq).
    destruct (step_queue _ _ _ Hstep) as [->|[task Htask]]; [by exists m|].
    exists (m + 1). split; [lia|].
    rewrite Hq in Htask.
    destruct (decide (0 < numDigitsPie - m)) as [Hpos|Hneg].
    + rewrite seqZ_cons, fmap_cons in Htask by done.
      injection Htask as _ Htask. rewrite <- Htask. do 2 f_equal; lia.
    + by rewrite seqZ_nil in Htask by lia.
Qed.


(** ** A pool of one worker *)

Lemma step_preserves_solo_inv i w w' :
  solo_inv w → thread_step i w = Next w' → solo_inv w'.
Proof.
  intros (pc & Hths & Hq) Hstep. unfold solo_inv.
  unfold thread_step in Hstep. rewrite Hths in Hstep.
  destruct i as [|i]; [|done]. simpl in Hstep.
  unfold goto, TaskList.lock, TaskList.unlock, TaskList.getTask, TaskList.pop,
    TaskList.isEmpty, PieTable.lock, PieTable.unlock in Hstep.
  destruct pc; simpl in *; repeat case_match; simplify_eq; simpl;
    rewrite Hths; simpl; eexists; (split; [done|]); simpl;
    try done; try (intros _; by apply Hq); congruence.
Qed.

Lemma launch_solo_inv numDigitsPie hc w0 :
  launch numDigitsPie hc = Some w0 → to_int hc = 1 → solo_inv w0.
Proof.
  intros (_ & _ & _ & Hths)%launch_Some Hhc. rewrite Hhc in Hths.
  exists AtLoopTest. by split.
Qed.

Lemma solo_run_defined numDigitsPie sched w :
  pool_inv numDigitsPie w → lock_inv w → solo_inv w →
  ∃ w', run sched w = Some w'.
Proof.
  revert w. induction sched as [|i sched IH]; intros w Hinv Hlock Hsolo;
    simpl; [by eexists|].
  destruct (thread_step i w) as [w1| |] eqn:Hstep.
  - apply IH.
    + by apply (step_preserves_inv _ i w).
    + by apply (step_preserves_lock_inv i w).
    + by apply (step_preserves_solo_inv i w).
  - by apply IH.
  - destruct (undefined_only_front numDigitsPie i w Hinv Hlock Hstep)
      as [Hi Hq].
    destruct Hsolo as (pc & Hths & Hfront). rewrite Hths in Hi.
    destruct i as [|i]; [|done]. simpl in Hi. simplify_eq.
    by destruct Hfront.
Qed.

(** X9: With one worker the race does not exist: no interleaving has undefined
    behaviour, and the worker alone, given one iteration per task and a
    last loop test, runs to the end. *)
Theorem one_worker_safe (numDigitsPie hc : Z) :
  to_int hc = 1 →
  (∀ sched, main_with numDigitsPie hc sched ≠ UndefinedBehaviour
            ∧ main_with numDigitsPie hc sched ≠ Throws)
  ∧ ∃ out, main_with numDigitsPie hc
             (solo 0 (Z.to_nat (numDigitsPie - 1)) ++ [0%nat]) = Exits out.
Proof.
  intros Hhc.
  destruct (launch_eq numDigitsPie hc) as [out0 Hlaunch]; [lia|].
  split.
  - intros sched. unfold main_with. rewrite Hlaunch.
    edestruct (solo_run_defined numDigitsPie sched) as [w ->].
    + by eapply launch_inv.
    + by eapply launch_lock_inv.
    + by eapply launch_solo_inv.
    + by destruct (joined w).
  - unfold main_with. rewrite Hlaunch, Hhc.
    rewrite run_app.
    destruct (solo_drains 0 (Build_Task <$> seqZ 1 (numDigitsPie - 1)) [] ∅
                out0 [AtLoopTest] eq_refl) as (pm' & out' & Hrun).
    rewrite app_nil_r, length_fmap, length_seqZ in Hrun.
    change (replicate (Z.to_nat 1) AtLoopTest) with [AtLoopTest].
    rewrite Hrun. simpl. by eexists.
Qed.

(** ** The output of [main] *)

Lemma dots_snoc d : dots d +:+ "." = dots (S d).
Proof.
  induction d as [|d IH]; [done|].
  cbn [dots]. rewrite string_app_cons. by rewrite IH.
Qed.

Lemma launch_cout numDigitsPie hc w0 :
  launch numDigitsPie hc = Some w0 → cout w0 = header numDigitsPie hc.
Proof.
  unfold launch. intros Hlaunch. case_decide; simplify_eq. simpl.
  unfold put_string, put_int, header. by rewrite !string_app_assoc.
Qed.

Lemma launch_marks_inv numDigitsPie hc w0 :
  launch numDigitsPie hc = Some w0 →
  marks_inv (header numDigitsPie hc) (Z.to_nat (numDigitsPie - 1)) w0.
Proof.
  intros Hlaunch. exists 0%nat.
  rewrite (launch_cout _ _ _ Hlaunch).
  apply launch_Some in Hlaunch as (_ & -> & _ & ->).
  split; [by rewrite string_app_nil_r|].
  rewrite piQueue_load, length_fmap, length_seqZ.
  assert (∀ n, sum_list (marked <$> replicate n AtLoopTest) = 0%nat) as ->.
  { induction n as [|n IH]; [done|].
    change (sum_list (marked <$> replicate (S n) AtLoopTest))
      with (sum_list (marked <$> replicate n AtLoopTest)).
    exact IH. }
  lia.
Qed.

Lemma step_preserves_marks_inv before total i w w' :
  marks_inv before total w → thread_step i w = Next w' →
  marks_inv before total w'.
Proof.
  intros (d & Hcout & Hcount) Hstep. unfold marks_inv.
  unfold thread_step in Hstep.
  destruct (threads w !! i) as [pc0|] eqn:Hpc; [|done].
  unfold goto, TaskList.lock, TaskList.unlock, TaskList.getTask, TaskList.pop,
    TaskList.isEmpty, PieTable.lock, PieTable.unlock in Hstep.
  destruct pc0; simpl in *; repeat case_match; simplify_eq; simpl.
  all: match goal with
       | |- context [<[_ := ?pc']> _] =>
           pose proof (sum_list_goto marked _ _ _ pc' Hpc) as Hsum;
           simpl in Hsum
       end.
  all: repeat match goal with
         | H : piQueue _ = _ |- _ => rewrite H in *
         end.
  all: simpl in *.
  all: try (exists d; split; [done|lia]).
  (* the progress mark *)
  exists (S d). split; [|lia].
  unfold put_string. by rewrite Hcout, string_app_assoc, dots_snoc.
Qed.

Lemma run_preserves_marks_inv before total sched w w' :
  marks_inv before total w → run sched w = Some w' →
  marks_inv before total w'.
Proof.
  revert w. induction sched as [|i sched IH]; intros w Hinv Hrun;
    simpl in Hrun.
  - by simplify_eq.
  - destruct (thread_step i w) as [w1| |] eqn:Hstep; [|by apply (IH w)|done].
    apply (IH w1); [|done]. by apply (step_preserves_marks_inv _ _ i w).
Qed.

Lemma joined_marked w : joined w = true → sum_list (marked <$> threads w) = 0%nat.
Proof.
  unfold joined. induction (threads w) as [|pc ths IH]; [done|].
  cbn [forallb]. intros [Hpc Hths]%andb_true_iff.
  rewrite fmap_cons. cbn [sum_list sum_list_with].
  rewrite (IH Hths). by destruct pc.
Qed.

(** X14: What [main] prints when it exits, whatever the interleaving: the two
    header lines, one progress mark per task, a line break, "3." and the
    digits computed for the indices 1 to [numDigitsPie - 1] in ascending
    order, and a line break. *)
Theorem main_output (numDigitsPie hc : Z) (sched : list nat) (out : string) :
  1 ≤ to_int hc →
  (∀ k, 1 ≤ k < numDigitsPie → computePi {| id := k |} ≤ 9) →
  main_with numDigitsPie hc sched = Exits out →
  out = header numDigitsPie hc +:+ dots (Z.to_nat (numDigitsPie - 1))
        +:+ newline +:+ "3."
        +:+ digit_string ((λ k, computePi {| id := k |})
                            <$> seqZ 1 (numDigitsPie - 1))
        +:+ newline.
Proof.
  intros Hhc Hdigit. unfold main_with.
  destruct (launch numDigitsPie hc) as [w0|] eqn:Hlaunch; [|done].
  destruct (run sched w0) as [w|] eqn:Hrun; [|done].
  destruct (joined w) eqn:Hjoined; [|done].
  intros [= <-].
  assert (threads w ≠ []) as Hths.
  { pose proof Hlaunch as (_ & _ & _ & Hths)%launch_Some.
    apply run_threads_length in Hrun. rewrite Hths, length_replicate in Hrun.
    intros Hnil. rewrite Hnil in Hrun. simpl in Hrun. lia. }
  assert (pool_inv numDigitsPie w) as Hinv
    by (eapply run_preserves_inv; [by eapply launch_inv | done]).
  assert (cout w = header numDigitsPie hc
                   +:+ dots (Z.to_nat (numDigitsPie - 1))) as Hcout.
  { destruct (run_preserves_marks_inv _ _ _ _ _
                (launch_marks_inv _ _ _ Hlaunch) Hrun) as (d & Hcout & Hcount).
    rewrite (joined_marked w Hjoined) in Hcount.
    assert (piQueue (taskList w) = []) as Hq.
    { destruct (threads w) as [|pc ths] eqn:Hpcs; [done|].
      assert (pc = Returned) as ->
        by (apply (joined_returned w 0 pc Hjoined); by rewrite Hpcs).
      destruct Hinv as [_ _ _ _ _ Hreturned]. apply (Hreturned 0%nat).
      by rewrite Hpcs. }
    rewrite Hq in Hcount. simpl in Hcount.
    rewrite Hcout. do 2 f_equal. lia. }
  rewrite (render_stored _ (λ k, computePi {| id := k |})).
  - simpl. rewrite Hcout. by rewrite !string_app_assoc.
  - intros k Hk. split.
    + rewrite completed_table with (numDigitsPie := numDigitsPie); try done.
      by rewrite decide_True.
    + split; [apply to_unsigned_range | by apply Hdigit].
Qed.


(** ** More on the result table and the printing loop *)

(** X2: Insertions for different indices commute. *)
Theorem insertValue_commute (key1 value1 key2 value2 : Z) (t : PieTable) :
  key1 ≠ key2 →
  PieTable.insertValue key1 value1 (PieTable.insertValue key2 value2 t)
  = PieTable.insertValue key2 value2 (PieTable.insertValue key1 value1 t).
Proof.
  intros Hne. destruct t as [m pm]. unfold PieTable.insertValue. simpl.
  destruct (pm !! key1) as [v1|] eqn:H1; destruct (pm !! key2) as [v2|] eqn:H2;
    simpl; rewrite ?H1, ?H2; simpl;
    rewrite ?lookup_insert_ne by done; rewrite ?H1, ?H2; simpl; try done.
  f_equal. by apply insert_insert_ne.
Qed.

(** X3: A second [get] for the same index returns what the first returned and
    changes nothing; a [get] touches no other index and not the mutex. *)
Theorem get_stable (index : Z) (t : PieTable) :
  PieTable.get index (PieTable.get index t).2 = PieTable.get index t
  ∧ (∀ k, k ≠ index →
          pieMap (PieTable.get index t).2 !! k = pieMap t !! k)
  ∧ hashMutex (PieTable.get index t).2 = hashMutex t.
Proof.
  unfold PieTable.get at 2 3 4 5.
  destruct (pieMap t !! index) as [value|] eqn:Hv; simpl.
  - split; [by rewrite (get_stored _ _ _ Hv)|done].
  - split_and!; [|intros k Hk; by rewrite lookup_insert_ne|done].
    unfold PieTable.get. simpl. by rewrite lookup_insert_eq.
Qed.

Lemma get_default index t :
  (PieTable.get index t).1 = to_int (default 0 (pieMap t !! index))
  ∧ hashMutex (PieTable.get index t).2 = hashMutex t
  ∧ ∀ k, pieMap (PieTable.get index t).2 !! k
         = if decide (k = index) then Some (default 0 (pieMap t !! index))
           else pieMap t !! k.
Proof.
  unfold PieTable.get.
  destruct (pieMap t !! index) as [value|] eqn:Hv; simpl.
  - split_and!; [done..|]. intros k. case_decide; by subst.
  - split_and!; [done..|]. intros k. case_decide.
    + subst. by rewrite lookup_insert_eq.
    + by rewrite lookup_insert_ne.
Qed.

Lemma print_digits_default indices t out :
  (print_digits indices t out).2
  = out +:+ ints_text ((λ i, to_int (default 0 (pieMap t !! i))) <$> indices)
  ∧ hashMutex (print_digits indices t out).1 = hashMutex t
  ∧ ∀ k, pieMap (print_digits indices t out).1 !! k
         = if decide (k ∈ indices) then Some (default 0 (pieMap t !! k))
           else pieMap t !! k.
Proof.
  revert t out. induction indices as [|i indices IH]; intros t out.
  - cbn [print_digits fmap list_fmap ints_text foldr fst snd].
    split_and!; [by rewrite string_app_nil_r|done|].
    intros k. destruct (decide (k ∈ [])) as [Hin|]; [|done].
    by apply elem_of_nil in Hin.
  - cbn [print_digits].
    destruct (get_default i t) as (Hval & Hmutex & Hmap).
    destruct (PieTable.get i t) as [value t1]. simpl in *.
    destruct (IH t1 (put_int value out)) as (Hout & Hmutex' & Hmap').
    assert (∀ k, default 0 (pieMap t1 !! k) = default 0 (pieMap t !! k))
      as Hsame.
    { intros k. rewrite Hmap. case_decide; by subst. }
    split_and!.
    + rewrite Hout. unfold put_int. rewrite string_app_assoc.
      change (ints_text (?f <$> i :: indices))
        with (pretty (f i) +:+ ints_text (f <$> indices)).
      cbv beta. rewrite Hval.
      do 3 f_equal. apply list_fmap_ext. intros ? k _. by rewrite Hsame.
    + by rewrite Hmutex'.
    + intros k. rewrite Hmap'.
      destruct (decide (k ∈ indices)) as [Hin|Hnin].
      * rewrite decide_True by (by right). by rewrite Hsame.
      * rewrite Hmap. destruct (decide (k = i)) as [->|Hne].
        -- by rewrite decide_True by left.
        -- rewrite decide_False; [done|].
           intros [?|?]%elem_of_cons; by simplify_eq.
Qed.

(** X4: The printing loop on any table: an index without an entry is printed
    as 0 and has the entry 0 afterwards; the entries that exist are printed
    (as [int]s) and are left as they are, like the indices that are not
    printed and the mutex. *)
Theorem render_fills_missing (numDigitsPie : Z) (t : PieTable) (out : string) :
  (render numDigitsPie t out).2
  = out +:+ newline +:+ "3."
        +:+ ints_text ((λ i, to_int (default 0 (pieMap t !! i)))
                         <$> seqZ 1 (numDigitsPie - 1))
        +:+ newline
  ∧ hashMutex (render numDigitsPie t out).1 = hashMutex t
  ∧ ∀ k, pieMap (render numDigitsPie t out).1 !! k
         = if decide (1 ≤ k < numDigitsPie)
           then Some (default 0 (pieMap t !! k)) else pieMap t !! k.
Proof.
  unfold render.
  destruct (print_digits_default (seqZ 1 (numDigitsPie - 1)) t
              (put_string (newline +:+ "3.") out)) as (Hout & Hmutex & Hmap).
  destruct (print_digits _ t _) as [t' out']. simpl in *.
  split_and!; [|done|].
  - rewrite Hout. unfold put_string. by rewrite !string_app_assoc.
  - intros k. rewrite Hmap.
    destruct (decide (1 ≤ k < numDigitsPie)) as [Hk|Hk].
    + by rewrite decide_True by (apply elem_of_seqZ; lia).
    + by rewrite decide_False by (rewrite elem_of_seqZ; lia).
Qed.

End WorkerPool.

(** * The integer functions of the digit computation *)

Lemma int_of_Returns z : int_min ≤ z ≤ int_max → int_of z = Returns z.
Proof. intros Hz. unfold int_of. by rewrite decide_True. Qed.

Lemma inv_mod_loop_spec x y fuel u v c a :
  0 < y ≤ int_max →
  0 < u ≤ int_max → 0 < v ≤ int_max →
  (Z.to_nat u ≤ fuel)%nat →
  (0 ≤ c ∧ a ≤ 0) ∨ (c ≤ 0 ∧ 0 ≤ a) →
  Z.abs c * v + Z.abs a * u = y →
  (y | c * x - u) → (y | a * x - v) →
  Z.gcd u v = Z.gcd x y →
  ∃ r, inv_mod_loop fuel u v c a = Returns r
       ∧ Z.abs r ≤ y ∧ (y | r * x - Z.gcd x y).
Proof.
  intros Hy. revert u v c a.
  induction fuel as [|fuel IH]; intros u v c a Hu Hv Hfuel Hsign Hsum Hc Ha Hgcd;
    [lia|].
  simpl.
  assert (v `quot` u = v `div` u) as Hq by (apply Z.quot_div_nonneg; lia).
  pose proof (Z.div_mod v u ltac:(lia)) as Hdm.
  pose proof (Z.mod_pos_bound v u ltac:(lia)) as Hmod.
  set (q := v `div` u) in *. set (m := v `mod` u) in *.
  assert (0 ≤ q) as Hq0 by (apply Z.div_pos; lia).
  assert (v - q * u = m) as Hm by lia.
  assert (Z.abs (a - q * c) = Z.abs a + q * Z.abs c) as Habs by lia.
  assert (Z.abs (a - q * c) * u + Z.abs c * m = y) as Hsum' by nia.
  assert (Z.abs (a - q * c) ≤ y) as Hc' by nia.
  assert (q * Z.abs c ≤ y) as Hqc by lia.
  unfold int_quot. rewrite decide_False by lia. rewrite Hq.
  unfold int_min, int_max in *.
  rewrite int_of_Returns by (unfold int_min, int_max; nia). simpl.
  rewrite int_of_Returns by (unfold int_min, int_max; nia). simpl.
  rewrite int_of_Returns by (unfold int_min, int_max; lia). simpl.
  rewrite int_of_Returns by (unfold int_min, int_max; nia). simpl.
  rewrite int_of_Returns by (unfold int_min, int_max; lia). simpl.
  rewrite Hm.
  assert (Z.gcd m u = Z.gcd x y) as Hgcd'.
  { rewrite <- Hgcd. apply Z.gcd_mod. lia. }
  case_decide as Hm0.
  - exists c. split; [done|]. split; [nia|].
    rewrite Hm0 in Hgcd'. rewrite Z.gcd_0_l, Z.abs_eq in Hgcd' by lia.
    by rewrite <- Hgcd'.
  - apply IH; try lia.
    + replace ((a - q * c) * x - m) with ((a * x - v) - q * (c * x - u)) by lia.
      apply Z.divide_sub_r; [done|]. by apply Z.divide_mul_r.
    + done.
Qed.

(** X16: [inv_mod]: for positive arguments no operation overflows, the loop ends
    within [x] iterations, and the result is the residue [a] in [0, y) with
    [a * x] congruent to [gcd x y] modulo [y]: the inverse of [x] when [x]
    and [y] are coprime. *)
Theorem inv_mod_correct (fuel : nat) (x y : Z) :
  0 < x ≤ int_max → 0 < y ≤ int_max → (Z.to_nat x ≤ fuel)%nat →
  ∃ a, inv_mod fuel x y = Returns a
       ∧ 0 ≤ a < y
       ∧ (a * x) `mod` y = Z.gcd x y `mod` y.
Proof.
  intros Hx Hy Hfuel. unfold inv_mod.
  destruct (inv_mod_loop_spec x y fuel x y 1 0) as (r & -> & Hr & Hdiv);
    try lia.
  { replace (1 * x - x) with 0 by lia. apply Z.divide_0_r. }
  { replace (0 * x - y) with (- y) by lia.
    apply Z.divide_opp_r, Z.divide_refl. }
  simpl. unfold int_rem. rewrite decide_False by lia.
  pose proof (Z.quot_rem' r y) as Hqr.
  pose proof (Z.rem_bound_abs r y ltac:(lia)) as Hrem.
  assert (Z.abs (r `quot` y) ≤ 1) as Hquot.
  { destruct (decide (r `quot` y = 0)) as [->|Hne]; [done|]. nia. }
  rewrite int_of_Returns by (unfold int_min, int_max in *; lia). simpl.
  assert (∀ a, 0 ≤ a < y → (y | a - r) →
            0 ≤ a < y ∧ (a * x) `mod` y = Z.gcd x y `mod` y) as Hfinal.
  { intros a Ha [k Hk]. split; [done|].
    destruct Hdiv as [k' Hk'].
    replace (a * x) with (Z.gcd x y + (k * x + k') * y) by lia.
    apply Z_mod_plus_full. }
  case_decide as Hneg.
  - rewrite int_of_Returns by (unfold int_min, int_max in *; lia).
    eexists. split; [done|]. apply Hfinal; [lia|].
    exists (1 - r `quot` y). lia.
  - eexists. split; [done|]. apply Hfinal; [lia|].
    exists (- (r `quot` y)). lia.
Qed.


Lemma inv_mod_loop_zero fuel v c a : inv_mod_loop (S fuel) 0 v c a = Faults.
Proof. reflexivity. Qed.

(** X17: [inv_mod] divides by its first argument and takes a remainder by its
    second: with either of them 0 the behaviour is undefined. *)
Theorem inv_mod_zero (fuel : nat) :
  (∀ y, inv_mod (S fuel) 0 y = Faults)
  ∧ (∀ x, 0 < x ≤ int_max → inv_mod (S fuel) x 0 = Faults).
Proof.
  split.
  - intros y. unfold inv_mod. by rewrite inv_mod_loop_zero.
  - intros x Hx. unfold inv_mod. cbn [inv_mod_loop].
    unfold int_quot. rewrite decide_False by lia.
    rewrite Z.quot_0_l by lia.
    rewrite (int_of_Returns 0) by done. cbn [mbind Eval_bind].
    rewrite (Z.mul_0_l x). reflexivity.
Qed.

Lemma mul_mod_nonneg a b m :
  0 ≤ a ≤ int_max → 0 ≤ b ≤ int_max → 0 < m →
  mul_mod a b m = Returns ((a * b) `mod` m).
Proof.
  intros Ha Hb Hm. unfold mul_mod, int_max in *.
  rewrite decide_True by nia. rewrite decide_False by lia.
  by rewrite Z.rem_mod_nonneg by nia.
Qed.

Lemma mul_mod_int a b m :
  int_min ≤ a ≤ int_max → int_min ≤ b ≤ int_max →
  int_min ≤ m ≤ int_max → m ≠ 0 →
  ∃ r, mul_mod a b m = Returns r ∧ int_min ≤ r ≤ int_max.
Proof.
  intros Ha Hb Hm Hm0. unfold mul_mod, int_min, int_max in *.
  rewrite decide_True by nia. rewrite decide_False by done.
  eexists. split; [done|].
  pose proof (Z.rem_bound_abs (a * b) m Hm0). lia.
Qed.

(** X15: The macro [mul_mod] on [int] operands: the product taken in
    [long long] never overflows, so the only undefined case is the modulus
    0; otherwise the result is the truncated remainder, smaller than the
    modulus in absolute value, so that it fits the [int] it is assigned
    to. *)
Theorem mul_mod_on_ints (a b m : Z) :
  int_min ≤ a ≤ int_max → int_min ≤ b ≤ int_max → int_min ≤ m ≤ int_max →
  mul_mod a b m = (if decide (m = 0) then Faults else Returns (Z.rem (a * b) m))
  ∧ (m ≠ 0 → Z.abs (Z.rem (a * b) m) < Z.abs m
             ∧ int_min ≤ Z.rem (a * b) m ≤ int_max).
Proof.
  intros Ha Hb Hm. unfold mul_mod, int_min, int_max in *.
  split; [by rewrite decide_True by nia|].
  intros Hm0. pose proof (Z.rem_bound_abs (a * b) m Hm0). lia.
Qed.

Lemma land_1_mod b : Z.land b 1 = b `mod` 2.
Proof. change 1 with (Z.ones 1) at 1. by rewrite Z.land_ones. Qed.

Lemma shiftr_1_div b : Z.shiftr b 1 = b `div` 2.
Proof. by rewrite Z.shiftr_div_pow2. Qed.

Lemma pow_mod_loop_spec fuel r aa b m :
  0 < m ≤ int_max → 0 ≤ r ≤ int_max → 0 ≤ aa ≤ int_max → 0 < b →
  (Z.to_nat (Z.log2 b) < fuel)%nat →
  pow_mod_loop fuel r aa b m = Returns ((r * aa ^ b) `mod` m).
Proof.
  intros Hm. revert r aa b.
  induction fuel as [|fuel IH]; intros r aa b Hr Haa Hb Hfuel; [lia|].
  cbn [pow_mod_loop].
  assert (Z.shiftr b 1 ≠ 0 →
          0 < Z.shiftr b 1 ∧ (Z.to_nat (Z.log2 (Z.shiftr b 1)) < fuel)%nat)
    as Hnext.
  { intros Hne.
    assert (0 ≤ Z.shiftr b 1) as Hnn by (apply Z.shiftr_nonneg; lia).
    assert (2 ≤ b) as Hb2.
    { destruct (decide (b < 2)); [|lia].
      rewrite shiftr_1_div, Z.div_small in Hne; lia. }
    split; [lia|]. rewrite Z.log2_shiftr by done.
    pose proof (Z.log2_le_mono 2 b Hb2) as Hlog.
    change (Z.log2 2) with 1 in Hlog. lia. }
  rewrite land_1_mod. rewrite shiftr_1_div in *.
  pose proof (Z.div_mod b 2 ltac:(lia)) as Hdm.
  pose proof (Z.mod_pos_bound b 2 ltac:(lia)) as Hmod.
  set (h := b `div` 2) in *.
  assert (aa ^ b = (aa * aa) ^ h * aa ^ (b `mod` 2)) as Hpow.
  { rewrite Hdm at 1. rewrite Z.pow_add_r, Z.pow_mul_r by lia.
    by rewrite Z.pow_2_r. }
  rewrite !mul_mod_nonneg by lia.
  destruct (decide (b `mod` 2 = 0)) as [Hbit|Hbit].
  - (* even exponent *)
    rewrite Hbit, Z.pow_0_r, Z.mul_1_r in Hpow.
    cbn [mbind Eval_bind]. rewrite decide_False by lia.
    cbn [mbind Eval_bind]. destruct Hnext as [Hh Hlog]; [lia|].
    pose proof (Z.mod_pos_bound (aa * aa) m ltac:(lia)).
    rewrite IH; [|lia..|done|done].
    f_equal. rewrite Hpow.
    rewrite <- Z.mul_mod_idemp_r, <- Zpower_mod by lia.
    by rewrite Z.mul_mod_idemp_r by lia.
  - (* odd exponent *)
    assert (b `mod` 2 = 1) as Hodd by lia.
    rewrite Hodd, Z.pow_1_r in Hpow.
    cbn [mbind Eval_bind]. destruct (decide (h = 0)) as [Hh0|Hh0].
    + f_equal. rewrite Hpow, Hh0. by rewrite Z.pow_0_r, Z.mul_1_l.
    + cbn [mbind Eval_bind]. destruct Hnext as [Hh Hlog]; [lia|].
      pose proof (Z.mod_pos_bound (aa * aa) m ltac:(lia)).
      pose proof (Z.mod_pos_bound (r * aa) m ltac:(lia)).
      rewrite IH; [|lia..|done|done].
      f_equal. rewrite Hpow.
      rewrite Z.mul_mod_idemp_l by lia.
      rewrite <- Z.mul_mod_idemp_r, <- Zpower_mod by lia.
      rewrite Z.mul_mod_idemp_r by lia. f_equal. lia.
Qed.

(** X18: [pow_mod] on a non-negative base, a positive modulus and a non-negative
    exponent: the loop ends after one iteration per bit of the exponent and
    returns the power reduced modulo [m], except that exponent 0 gives 1
    whatever the modulus (so 1, not 0, for modulus 1). *)
Theorem pow_mod_correct (fuel : nat) (a b m : Z) :
  0 ≤ a ≤ int_max → 0 < m ≤ int_max → 0 ≤ b →
  (Z.to_nat (Z.log2 b) < fuel)%nat →
  pow_mod fuel a b m
  = Returns (if decide (b = 0) then 1 else (a ^ b) `mod` m).
Proof.
  intros Ha Hm Hb Hfuel. unfold pow_mod. case_decide as Hb0.
  - subst b. destruct fuel as [|fuel]; [simpl in Hfuel; lia|]. reflexivity.
  - rewrite pow_mod_loop_spec; [by rewrite Z.mul_1_l|..]; try done.
    all: unfold int_max; lia.
Qed.

Lemma pow_mod_loop_negative fuel r aa b m :
  int_min ≤ r ≤ int_max → int_min ≤ aa ≤ int_max →
  int_min ≤ m ≤ int_max → m ≠ 0 → b < 0 →
  pow_mod_loop fuel r aa b m = Unfinished.
Proof.
  intros Hr Haa Hm Hm0. revert r aa b Hr Haa.
  induction fuel as [|fuel IH]; intros r aa b Hr Haa Hb; [done|].
  cbn [pow_mod_loop].
  assert (Z.shiftr b 1 < 0) as Hneg by (by apply Z.shiftr_neg).
  destruct (mul_mod_int aa aa m) as (aa' & Haa' & ?); [done..|].
  destruct (mul_mod_int r aa m) as (r' & Hr' & ?); [done..|].
  rewrite Haa', Hr'.
  destruct (decide (Z.land b 1 = 0)); cbn [mbind Eval_bind];
    rewrite (decide_False (P := Z.shiftr b 1 = 0)) by lia;
    cbn [mbind Eval_bind]; by apply IH.
Qed.

(** X19: [pow_mod] with a negative exponent does not return: the shifted
    exponent stays negative, so the test [b == 0] never holds. *)
Theorem pow_mod_negative_exponent (fuel : nat) (a b m : Z) :
  int_min ≤ a ≤ int_max → int_min ≤ m ≤ int_max → m ≠ 0 → b < 0 →
  pow_mod fuel a b m = Unfinished.
Proof.
  intros Ha Hm Hm0 Hb. unfold pow_mod.
  apply pow_mod_loop_negative; done.
Qed.

Lemma is_prime_loop_spec fuel n i r :
  3 ≤ i → r ≤ int_max - 2 → r - i < 2 * Z.of_nat fuel →
  (is_prime_loop fuel n i r = Returns 0 ∧ ∃ j, i ≤ j ≤ r ∧ (j | n))
  ∨ (is_prime_loop fuel n i r = Returns 1
     ∧ ∀ k, 0 ≤ k → i + 2 * k ≤ r → ¬ (i + 2 * k | n)).
Proof.
  intros Hi Hr. revert i Hi.
  induction fuel as [|fuel IH]; intros i Hi Hfuel.
  - right. simpl. rewrite decide_False by lia. split; [done|]. lia.
  - cbn [is_prime_loop]. destruct (decide (i ≤ r)) as [Hle|Hgt].
    + destruct (decide (Z.rem n i = 0)) as [Hrem|Hrem].
      * left. split; [done|]. exists i. split; [lia|].
        by apply Z.rem_divide; [lia|].
      * rewrite int_of_Returns by (unfold int_min, int_max in *; lia).
        cbn [mbind Eval_bind].
        destruct (IH (i + 2)) as [[-> (j & Hj & Hdiv)]|[-> Hnone]]; [lia..| |].
        -- left. split; [done|]. exists j. split; [lia|done].
        -- right. split; [done|]. intros k Hk Hkr Hdiv.
           destruct (decide (k = 0)) as [->|Hk0].
           ++ apply Hrem. apply Z.rem_divide; [lia|].
              by rewrite Z.mul_0_r, Z.add_0_r in Hdiv.
           ++ apply (Hnone (k - 1)); [lia..|].
              by replace (i + 2 + 2 * (k - 1)) with (i + 2 * k) by lia.
    + right. split; [done|]. lia.
Qed.

Lemma is_int_sqrt_lt isqrt n :
  is_int_sqrt isqrt → 2 ≤ n ≤ int_max → 0 ≤ isqrt n < n ∧ isqrt n ≤ 46340.
Proof.
  intros Hsqrt Hn. destruct (Hsqrt n) as (H0 & Hle & Hlt); [lia|].
  unfold int_max in *. split; [split; [done|nia]|nia].
Qed.

(** No odd number from 3 to the square root divides an odd [n]: [n] is
    prime. *)
Lemma odd_trial_division_prime n r :
  3 ≤ n → Z.rem n 2 ≠ 0 → 0 ≤ r → n < (r + 1) * (r + 1) →
  (∀ k, 0 ≤ k → 3 + 2 * k ≤ r → ¬ (3 + 2 * k | n)) →
  prime n.
Proof.
  intros Hn Hodd Hr Hlt Hnone. apply prime_alt. split; [lia|].
  intros d Hd [e He].
  assert (∀ m, 1 < m → (m | n) → m * m ≤ n → False) as Hsmall.
  { intros m Hm Hdiv Hmm.
    assert (m ≤ r) as Hmr by nia.
    assert (m `mod` 2 = 1) as Hm2.
    { pose proof (Z.mod_pos_bound m 2 ltac:(lia)).
      destruct (decide (m `mod` 2 = 0)) as [Heven|]; [|lia].
      destruct Hodd. apply Z.rem_divide; [lia|].
      apply Z.divide_trans with m; [|done].
      by apply Z.mod_divide. }
    pose proof (Z.div_mod m 2 ltac:(lia)) as Hdm.
    apply (Hnone (m `div` 2 - 1)); [lia..|].
    by replace (3 + 2 * (m `div` 2 - 1)) with m by lia. }
  assert (1 < e) as He1 by nia.
  destruct (decide (d ≤ e)).
  - apply (Hsmall d); [lia| by exists e |nia].
  - apply (Hsmall e); [lia| exists d; lia |nia].
Qed.

(** The result of [is_prime], by trial division up to the square root. *)
Lemma is_prime_result (int_sqrt : Z → Z) (n : Z) :
  is_int_sqrt int_sqrt → 0 ≤ n ≤ int_max →
  ∃ b, is_prime int_sqrt n = Returns b
       ∧ (b = 0 ∨ b = 1)
       ∧ (b = 1 ↔ n = 1 ∨ (2 < n ∧ prime n)).
Proof.
  intros Hsqrt Hn. unfold is_prime.
  destruct (decide (Z.rem n 2 = 0)) as [Heven|Hodd].
  - exists 0. split; [done|]. split; [by left|]. split; [done|].
    intros [->|[Hn2 Hprime]]; [done|].
    apply prime_alt in Hprime as [_ Hprime].
    destruct (Hprime 2); [lia|]. by apply Z.rem_divide.
  - rewrite decide_False by lia.
    destruct (decide (n = 1)) as [->|Hn1].
    { destruct (Hsqrt 1) as (H0 & Hle & Hlt); [lia|].
      assert (int_sqrt 1 = 1) as -> by nia.
      exists 1. split; [done|]. split; [by right|]. by split; [left|]. }
    assert (3 ≤ n) as Hn3.
    { destruct (decide (n = 0)) as [->|]; [done|].
      destruct (decide (n = 2)) as [->|]; [done|]. lia. }
    destruct (is_int_sqrt_lt int_sqrt n Hsqrt) as [Hr Hr']; [lia|].
    destruct (Hsqrt n) as (_ & Hle & Hlt); [lia|].
    destruct (is_prime_loop_spec (Z.to_nat (int_sqrt n)) n 3 (int_sqrt n))
      as [[-> (j & Hj & Hdiv)]|[-> Hnone]]; [lia|unfold int_max; lia|lia| |].
    + exists 0. split; [done|]. split; [by left|]. split; [done|].
      intros [->|[_ Hprime]]; [lia|].
      apply prime_alt in Hprime as [_ Hprime]. destruct (Hprime j); [lia|done].
    + exists 1. split; [done|]. split; [by right|]. split; [|done].
      intros _. right. split; [lia|].
      apply (odd_trial_division_prime n (int_sqrt n)); [done|done|lia|lia|done].
Qed.

(** The search of [next_prime] stops at the first odd prime above [n]. *)
Lemma next_prime_least (int_sqrt : Z → Z) (fuel : nat) (n q : Z) :
  is_int_sqrt int_sqrt →
  1 ≤ n → n < q ≤ int_max → 2 < q → prime q →
  (Z.to_nat (q - n) ≤ fuel)%nat →
  ∃ p, next_prime int_sqrt fuel n = Returns p
       ∧ n < p ≤ q ∧ 2 < p ∧ prime p
       ∧ ∀ k, n < k < p → 2 < k → ¬ prime k.
Proof.
  intros Hsqrt Hn Hq Hq2 Hprime. revert n Hn Hq.
  induction fuel as [|fuel IH]; intros n Hn Hq Hfuel; [lia|].
  cbn [next_prime].
  rewrite int_of_Returns by (unfold int_min, int_max in *; lia).
  cbn [mbind Eval_bind].
  destruct (is_prime_result int_sqrt (n + 1) Hsqrt) as (b & -> & Hb & Hb1);
    [lia|].
  cbn [mbind Eval_bind]. destruct (decide (b = 0)) as [->|Hb0].
  - assert (¬ (2 < n + 1 ∧ prime (n + 1))) as Hnot.
    { intros Hp. assert (0 = 1) by (apply Hb1; by right). done. }
    assert (n + 1 ≠ q) as Hne.
    { intros Heq. apply Hnot. rewrite Heq. split; [lia|done]. }
    destruct (IH (n + 1)) as (p & -> & Hp & Hp2 & Hpp & Hleast); [lia..|].
    exists p. split; [done|]. split; [lia|]. split; [done|]. split; [done|].
    intros k Hk Hk2 Hkp.
    destruct (decide (k = n + 1)) as [->|]; [by apply Hnot|].
    apply (Hleast k); [lia|done..].
  - assert (b = 1) as -> by lia.
    destruct Hb1 as [Hb1 _]. destruct (Hb1 eq_refl) as [?|[Hn2 Hp]]; [lia|].
    exists (n + 1). split; [done|]. split; [lia|]. split; [done|].
    split; [done|]. intros k Hk. lia.
Qed.

(** X20: [is_prime] on the non-negative ints, given that [(int) sqrt(n)] is the
    integer square root: it returns 0 or 1, and 1 exactly for 1 and for the
    primes above 2.  So it is primality for [n >= 3], while 2 is reported
    as not prime and 1 as prime. *)
Theorem is_prime_spec (int_sqrt : Z → Z) (n : Z) :
  is_int_sqrt int_sqrt → 0 ≤ n ≤ int_max →
  ∃ b, is_prime int_sqrt n = Returns b
       ∧ (b = 0 ∨ b = 1)
       ∧ (b = 1 ↔ n = 1 ∨ (2 < n ∧ prime n)).
Proof. apply is_prime_result. Qed.

(** X21: [next_prime] from [n >= 1], when some odd prime [q] above [n] fits an [int]:
    it returns within [q - n] iterations, and the result is the least prime
    above [n] other than 2. *)
Theorem next_prime_spec (int_sqrt : Z → Z) (fuel : nat) (n q : Z) :
  is_int_sqrt int_sqrt →
  1 ≤ n → n < q ≤ int_max → 2 < q → prime q →
  (Z.to_nat (q - n) ≤ fuel)%nat →
  ∃ p, next_prime int_sqrt fuel n = Returns p
       ∧ n < p ≤ q ∧ 2 < p ∧ prime p
       ∧ ∀ k, n < k < p → 2 < k → ¬ prime k.
Proof. apply next_prime_least. Qed.

Lemma Z_sqrt_is_int_sqrt : is_int_sqrt Z.sqrt.
Proof.
  intros n Hn. split; [apply Z.sqrt_nonneg|].
  pose proof (Z.sqrt_spec n Hn) as Hspec. simpl in Hspec. lia.
Qed.

Lemma prime_int_max : prime int_max.
Proof.
  destruct (is_prime_result Z.sqrt int_max Z_sqrt_is_int_sqrt)
    as (b & Hb & _ & Hb1); [done|].
  assert (is_prime Z.sqrt int_max = Returns 1) as Hrun by (by vm_compute).
  rewrite Hrun in Hb. injection Hb as <-.
  destruct Hb1 as [Hb1 _]. by destruct (Hb1 eq_refl) as [?|[_ ?]].
Qed.

(** X22: [next_prime] returns for every [n] from 1 below [INT_MAX], because
    [2^31 - 1] is prime; at [INT_MAX] the increment overflows. *)
Theorem next_prime_returns (int_sqrt : Z → Z) (fuel : nat) (n : Z) :
  is_int_sqrt int_sqrt →
  1 ≤ n < int_max → (Z.to_nat (int_max - n) ≤ fuel)%nat →
  (∃ p, next_prime int_sqrt fuel n = Returns p
        ∧ n < p ≤ int_max ∧ 2 < p ∧ prime p
        ∧ ∀ k, n < k < p → 2 < k → ¬ prime k)
  ∧ next_prime int_sqrt (S fuel) int_max = Faults.
Proof.
  intros Hsqrt Hn Hfuel. split; [|reflexivity].
  apply next_prime_least; [done|lia|lia|done|apply prime_int_max|done].
Qed.

(** ** The digit computation *)


(** * Closed instances

    The theorems above at concrete inputs, with [pi_digit] for the digit
    computation where one is needed. *)

(** [get] on the empty table and on the table that stores digit 0 for the
    index give the same result: no failure, and nothing that tells a
    missing entry from a stored 0. *)
Lemma get_missing_same_as_zero :
  pieMap PieTable.empty !! 7 = None
  ∧ PieTable.get 7 PieTable.empty
    = (0, PieTable.insertValue 7 0 PieTable.empty)
  ∧ PieTable.get 7 (PieTable.insertValue 7 0 PieTable.empty)
    = (0, PieTable.insertValue 7 0 PieTable.empty).
Proof. split_and!; reflexivity. Qed.

Lemma get_missing_returns_zero_at_7 :
  pieMap PieTable.empty !! 7 = None
  ∧ (PieTable.get 7 PieTable.empty).1 = 0
  ∧ ∀ t', pieMap t' !! 7 = Some 0 →
          (PieTable.get 7 PieTable.empty).1 = (PieTable.get 7 t').1.
Proof.
  split; [reflexivity|].
  apply (get_missing_returns_zero 7 PieTable.empty). reflexivity.
Defined.

Lemma get_missing_inserts_zero_at_7 :
  pieMap PieTable.empty !! 7 = None
  ∧ PieTable.get 7 PieTable.empty
    = (0, {| hashMutex := None; pieMap := <[7 := 0]> ∅ |})
  ∧ (PieTable.get 7 PieTable.empty).2 ≠ PieTable.empty
  ∧ PieTable.get 7 PieTable.empty
    = PieTable.get 7 (PieTable.insertValue 7 0 PieTable.empty)
  ∧ ∀ out, print_digits [7] PieTable.empty out
           = (PieTable.insertValue 7 0 PieTable.empty, out +:+ "0").
Proof.
  split; [reflexivity|].
  apply (get_missing_inserts_zero 7 PieTable.empty). reflexivity.
Defined.



(** The ordering example: whatever the order of the insertions, the
    digits are printed as 3, 1, 4, 1, 5. *)
Lemma render_ascending_example :
  (∀ i, 1 ≤ i < 6 → 0 ≤ example_digit i ≤ 9)
  ∧ (render 6 (store_all example_digit [4; 2; 5; 1; 3] PieTable.empty) "").2
    = newline +:+ "3.31415" +:+ newline
  ∧ (render 6 (store_all example_digit [1; 2; 3; 4; 5] PieTable.empty) "").2
    = newline +:+ "3.31415" +:+ newline.
Proof.
  assert (∀ i, 1 ≤ i < 6 → 0 ≤ example_digit i ≤ 9) as Hdigit.
  { intros i Hi.
    assert (i = 1 ∨ i = 2 ∨ i = 3 ∨ i = 4 ∨ i = 5) as Hcases by lia.
    destruct_or!; subst i; vm_compute; split; discriminate. }
  split; [exact Hdigit|].
  destruct (render_ascending 6 example_digit "" Hdigit) as [_ Horder].
  split.
  - apply (Horder [4; 2; 5; 1; 3]). apply (bool_decide_unpack _). by vm_compute.
  - apply (Horder [1; 2; 3; 4; 5]). apply (bool_decide_unpack _). by vm_compute.
Defined.

(** Two workers and one task. *)
Lemma emptiness_test_goes_stale_example :
  let w := {| taskList := load 2; pieTable := PieTable.empty; cout := "";
              threads := [AtLoopTest; AtLoopTest] |} in
  ∃ w1 w2,
    run pi_digit [0; 1]%nat w = Some w1
    ∧ threads w1 !! 0%nat = Some AtProgress
    ∧ threads w1 !! 1%nat = Some AtProgress
    ∧ run pi_digit [0; 0; 0; 0; 0]%nat w1 = Some w2
    ∧ threads w2 !! 0%nat = Some (AtCompute {| id := 1 |})
    ∧ threads w2 !! 1%nat = Some AtProgress
    ∧ TaskList.isEmpty (taskList w2) = true
    ∧ queueMutex (taskList w2) = None
    ∧ run pi_digit [1; 1; 1]%nat w2 = None.
Proof.
  intros w.
  apply (emptiness_test_goes_stale pi_digit w 0 1 {| id := 1 |});
    [discriminate | reflexivity..].
Defined.

(** The program as it is, 1000 digits, on a machine with two hardware
    threads. *)
Lemma main_can_go_wrong :
  2 ≤ 1000 ∧ 2 ≤ to_int 2
  ∧ main pi_digit 2 (solo 0 998 ++ stale_test 0 1) = UndefinedBehaviour.
Proof.
  split; [lia|]. split; [by vm_compute|].
  apply (pool_run_can_go_wrong pi_digit 1000 2); [lia | by vm_compute].
Defined.

(** Three digits asked for, two workers: the completed run leaves two
    entries, for the indices 1 and 2. *)
Lemma completed_run_entries_example :
  ∃ w0 w,
    1 ≤ to_int 2
    ∧ launch 3 2 = Some w0
    ∧ run pi_digit example_sched w0 = Some w
    ∧ joined w = true
    ∧ dom (pieMap (pieTable w)) = list_to_set (seqZ 1 (3 - 1))
    ∧ size (pieMap (pieTable w)) = Z.to_nat (3 - 1)
    ∧ pieMap (pieTable w) !! 3 = None.
Proof.
  eexists _, _.
  split; [by vm_compute|]. split; [reflexivity|].
  split; [vm_compute; reflexivity|]. split; [reflexivity|].
  eapply (completed_run_entries pi_digit 3 2 example_sched);
    [by vm_compute | reflexivity | vm_compute; reflexivity | reflexivity].
Defined.

(** Four hardware threads: four workers. *)
Lemma launch_pool_size_example :
  0 ≤ 4 < 2 ^ 31
  ∧ ∃ w0, launch 1000 4 = Some w0
          ∧ threads w0 = replicate (Z.to_nat 4) AtLoopTest
          ∧ (4 = 0 →
             threads w0 = [] ∧ joined w0 = true
             ∧ ∀ sched, run pi_digit sched w0 = Some w0).
Proof.
  split; [lia|]. apply (launch_pool_size pi_digit 1000 4). lia.
Defined.

(** No hardware thread count available: the program goes on with no
    worker, and prints a 0 for every digit. *)
Lemma no_fallback_pool_size :
  (∃ w0, launch 1000 0 = Some w0 ∧ length (threads w0) = 0%nat
         ∧ joined w0 = true)
  ∧ main_with pi_digit 4 0 []
    = Exits ("Computing pi with 0 threads " +:+ newline +:+ "4 Digits"
             +:+ newline +:+ newline +:+ "3.000" +:+ newline).
Proof.
  split; [|reflexivity].
  eexists. split; [reflexivity|]. split; reflexivity.
Qed.

(** ** The queue, the table and the printing loop *)

(** Pushes and pops interleaved on the queue loaded for three digits. *)
Lemma queue_ops_fifo_example :
  ∃ got q',
    queue_ops [Pop; Push {| id := 7 |}; Pop; Pop] (load 3) = Some (got, q')
    ∧ got ++ piQueue q'
      = piQueue (load 3) ++ pushed [Pop; Push {| id := 7 |}; Pop; Pop].
Proof.
  eexists _, _. split; [reflexivity|].
  apply (queue_ops_fifo [Pop; Push {| id := 7 |}; Pop; Pop] (load 3)).
  reflexivity.
Defined.

Lemma insertValue_commute_example :
  1 ≠ 2
  ∧ PieTable.insertValue 1 3 (PieTable.insertValue 2 1 PieTable.empty)
    = PieTable.insertValue 2 1 (PieTable.insertValue 1 3 PieTable.empty).
Proof.
  split; [lia|]. apply (insertValue_commute 1 3 2 1 PieTable.empty). lia.
Defined.

Lemma get_stable_example :
  PieTable.get 7 (PieTable.get 7 PieTable.empty).2
  = PieTable.get 7 PieTable.empty
  ∧ (∀ k, k ≠ 7 →
          pieMap (PieTable.get 7 PieTable.empty).2 !! k
          = pieMap PieTable.empty !! k)
  ∧ hashMutex (PieTable.get 7 PieTable.empty).2 = hashMutex PieTable.empty.
Proof. apply (get_stable 7 PieTable.empty). Defined.

(** The printing loop on a table that holds the digit of index 2 only. *)
Lemma render_fills_missing_example :
  (render 4 (PieTable.insertValue 2 1 PieTable.empty) EmptyString).2
  = newline +:+ "3.010" +:+ newline
  ∧ pieMap (render 4 (PieTable.insertValue 2 1 PieTable.empty) EmptyString).1
      !! 1 = Some 0.
Proof.
  destruct (render_fills_missing 4 (PieTable.insertValue 2 1 PieTable.empty)
              EmptyString) as (Hout & _ & Hmap).
  split; [by rewrite Hout|]. by rewrite (Hmap 1).
Defined.

(** ** The pool *)

Lemma each_index_once_example :
  ∃ w0 w,
    launch 3 2 = Some w0
    ∧ run pi_digit (take 9 example_sched) w0 = Some w
    ∧ occurrences w 1 = 1%nat ∧ occurrences w 2 = 1%nat
    ∧ occurrences w 3 = 0%nat.
Proof.
  eexists _, _. split; [reflexivity|]. split; [vm_compute; reflexivity|].
  split_and!.
  - eapply (each_index_once pi_digit 3 2 (take 9 example_sched) _ _ 1);
      [reflexivity | vm_compute; reflexivity].
  - reflexivity.
  - reflexivity.
Defined.

(** Worker 0 on its own up to the insertion of the first digit. *)
Lemma insert_finds_no_entry_example :
  ∃ w0 w,
    launch 3 2 = Some w0
    ∧ run pi_digit (replicate 8 0%nat) w0 = Some w
    ∧ threads w !! 0%nat = Some (AtInsert 1 1)
    ∧ pieMap (pieTable w) !! 1 = None
    ∧ pieMap (PieTable.insertValue 1 (to_unsigned 1) (pieTable w)) !! 1
      = Some (computePi pi_digit {| id := 1 |}).
Proof.
  eexists _, _. split; [reflexivity|]. split; [vm_compute; reflexivity|].
  split; [reflexivity|].
  eapply (insert_finds_no_entry pi_digit 3 2 (replicate 8 0%nat) _ _ 0 1 1);
    [reflexivity | vm_compute; reflexivity | reflexivity].
Defined.

(** Worker 0 past its queue section and worker 1 inside its own. *)
Lemma pool_exclusion_example :
  ∃ w0 w,
    launch 3 2 = Some w0
    ∧ run pi_digit (take 9 example_sched) w0 = Some w
    ∧ threads w !! 0%nat = Some (AtCompute {| id := 1 |})
    ∧ threads w !! 1%nat = Some AtGetTask
    ∧ (in_queue_section (AtCompute {| id := 1 |}) = true →
       in_queue_section AtGetTask = true → 0%nat = 1%nat)
    ∧ (in_table_section (AtCompute {| id := 1 |}) = true →
       in_table_section AtGetTask = true → 0%nat = 1%nat).
Proof.
  eexists _, _. split; [reflexivity|]. split; [vm_compute; reflexivity|].
  split; [reflexivity|]. split; [reflexivity|].
  eapply (pool_exclusion pi_digit 3 2 (take 9 example_sched));
    [reflexivity | vm_compute; reflexivity | reflexivity | reflexivity].
Defined.

Lemma defined_run_steps_bounded_example :
  ∃ w0 w,
    launch 3 2 = Some w0
    ∧ run pi_digit (example_sched ++ example_sched) w0 = Some w
    ∧ (steps_taken pi_digit (example_sched ++ example_sched) w0
       + steps_left w
       ≤ 10 * Z.to_nat (3 - 1) + 5 * Z.to_nat (to_int 2))%nat.
Proof.
  eexists _, _. split; [reflexivity|]. split; [vm_compute; reflexivity|].
  eapply (defined_run_steps_bounded pi_digit 3 2
            (example_sched ++ example_sched));
    [reflexivity | vm_compute; reflexivity].
Defined.

Lemma pool_deadlock_free_example :
  ∃ w0 w,
    launch 3 2 = Some w0
    ∧ run pi_digit (take 9 example_sched) w0 = Some w
    ∧ joined w = false
    ∧ ∃ i, thread_step pi_digit i w ≠ Stuck.
Proof.
  eexists _, _. split; [reflexivity|]. split; [vm_compute; reflexivity|].
  split; [reflexivity|].
  eapply (pool_deadlock_free pi_digit 3 2 (take 9 example_sched));
    [reflexivity | vm_compute; reflexivity | reflexivity].
Defined.

(** Worker 0 about to pop the task of index 1, with the task of index 2
    behind it. *)
Lemma lock_discipline_example :
  ∃ w0 w,
    launch 3 2 = Some w0
    ∧ run pi_digit [0; 1; 0; 0; 0]%nat w0 = Some w
    ∧ threads w !! 0%nat = Some (AtPop {| id := 1 |})
    ∧ (in_queue_section (AtPop {| id := 1 |}) = true →
       queueMutex (taskList w) = Some 0%nat)
    ∧ (in_table_section (AtPop {| id := 1 |}) = true →
       hashMutex (pieTable w) = Some 0%nat)
    ∧ (∀ taskTemp, AtPop {| id := 1 |} = AtPop taskTemp →
         ∃ rest, piQueue (taskList w) = taskTemp :: rest
                 ∧ TaskList.pop (taskList w)
                   = Some {| piQueue := rest; queueMutex := Some 0%nat |})
    ∧ (AtPop {| id := 1 |} = AtLoopTest →
       queueMutex (taskList w) ≠ Some 0%nat).
Proof.
  eexists _, _. split; [reflexivity|]. split; [vm_compute; reflexivity|].
  split; [reflexivity|].
  eapply (lock_discipline pi_digit 3 2 [0; 1; 0; 0; 0]%nat);
    [reflexivity | vm_compute; reflexivity | reflexivity].
Defined.

(** Two workers and two tasks at the start of the pool. *)
Lemma isEmpty_races_with_pop_example :
  ∃ w0,
    launch 3 2 = Some w0
    ∧ 0%nat ≠ 1%nat
    ∧ threads w0 !! 0%nat = Some AtLoopTest
    ∧ threads w0 !! 1%nat = Some AtLoopTest
    ∧ piQueue (taskList w0) = [{| id := 1 |}; {| id := 2 |}]
    ∧ queueMutex (taskList w0) = None
    ∧ ∃ w1,
        run pi_digit [0; 0; 0; 0]%nat w0 = Some w1
        ∧ threads w1 !! 0%nat = Some (AtPop {| id := 1 |})
        ∧ threads w1 !! 1%nat = Some AtLoopTest
        ∧ queueMutex (taskList w1) = Some 0%nat
        ∧ (∃ w2, thread_step pi_digit 0 w1 = Next w2
                 ∧ piQueue (taskList w2) = [{| id := 2 |}]
                 ∧ piQueue (taskList w2) ≠ piQueue (taskList w1))
        ∧ (∃ w3, thread_step pi_digit 1 w1 = Next w3
                 ∧ threads w3 !! 1%nat = Some AtProgress
                 ∧ threads w3 !! 0%nat = Some (AtPop {| id := 1 |})).
Proof.
  eexists. split; [reflexivity|]. split; [lia|].
  split; [reflexivity|]. split; [reflexivity|]. split; [reflexivity|].
  split; [reflexivity|].
  apply (isEmpty_races_with_pop pi_digit _ 0 1 {| id := 1 |} [{| id := 2 |}]);
    [lia | reflexivity | reflexivity | reflexivity | reflexivity].
Defined.

Lemma queue_ascending_example :
  ∃ w0 w,
    launch 5 2 = Some w0
    ∧ run pi_digit (take 9 example_sched) w0 = Some w
    ∧ ∃ m, 1 ≤ m ∧ piQueue (taskList w) = Build_Task <$> seqZ m (5 - m).
Proof.
  eexists _, _. split; [reflexivity|]. split; [vm_compute; reflexivity|].
  eapply (queue_ascending pi_digit 5 2 (take 9 example_sched));
    [reflexivity | vm_compute; reflexivity].
Defined.

Lemma one_worker_safe_example :
  to_int 1 = 1
  ∧ (∀ sched, main_with pi_digit 1000 1 sched ≠ UndefinedBehaviour
              ∧ main_with pi_digit 1000 1 sched ≠ Throws)
  ∧ ∃ out, main_with pi_digit 1000 1
             (solo 0 (Z.to_nat (1000 - 1)) ++ [0%nat]) = Exits out.
Proof.
  split; [reflexivity|]. apply (one_worker_safe pi_digit 1000 1). reflexivity.
Defined.

(** Two completed runs of two workers on two tasks: the interleaved one and
    the one in which worker 0 does all the work. *)
Lemma completed_runs_agree_example :
  ∃ w0 w1 w2,
    1 ≤ to_int 2
    ∧ launch 3 2 = Some w0
    ∧ run pi_digit example_sched w0 = Some w1 ∧ joined w1 = true
    ∧ run pi_digit (solo 0 2 ++ [0; 1]%nat) w0 = Some w2 ∧ joined w2 = true
    ∧ pieMap (pieTable w1) = pieMap (pieTable w2).
Proof.
  eexists _, _, _. split; [by vm_compute|]. split; [reflexivity|].
  split; [vm_compute; reflexivity|]. split; [reflexivity|].
  split; [vm_compute; reflexivity|]. split; [reflexivity|].
  eapply (completed_runs_agree pi_digit 3 2 example_sched
            (solo 0 2 ++ [0; 1]%nat));
    [by vm_compute | reflexivity | vm_compute; reflexivity | reflexivity
    | vm_compute; reflexivity | reflexivity].
Defined.

Lemma main_output_example :
  1 ≤ to_int 2
  ∧ (∀ k, 1 ≤ k < 3 → computePi pi_digit {| id := k |} ≤ 9)
  ∧ main_with pi_digit 3 2 example_sched
    = Exits ("Computing pi with 2 threads " +:+ newline +:+ "3 Digits"
             +:+ newline +:+ ".." +:+ newline +:+ "3.14" +:+ newline)
  ∧ "Computing pi with 2 threads " +:+ newline +:+ "3 Digits"
    +:+ newline +:+ ".." +:+ newline +:+ "3.14" +:+ newline
    = header 3 2 +:+ dots (Z.to_nat (3 - 1)) +:+ newline +:+ "3."
      +:+ digit_string ((λ k, computePi pi_digit {| id := k |})
                          <$> seqZ 1 (3 - 1))
      +:+ newline.
Proof.
  assert (∀ k, 1 ≤ k < 3 → computePi pi_digit {| id := k |} ≤ 9) as Hdigit.
  { intros k Hk.
    assert (k = 1 ∨ k = 2) as [->| ->] by lia; by vm_compute. }
  split; [by vm_compute|]. split; [exact Hdigit|]. split; [reflexivity|].
  apply (main_output pi_digit 3 2 example_sched);
    [by vm_compute | exact Hdigit | reflexivity].
Defined.

(** ** The integer functions *)

(** The product of the two smallest [int]s, 2^62, fits a [long long]. *)
Lemma mul_mod_on_ints_example :
  int_min ≤ int_min ≤ int_max ∧ int_min ≤ -7 ≤ int_max
  ∧ mul_mod int_min int_min (-7)
    = (if decide (-7 = 0) then Faults
       else Returns (Z.rem (int_min * int_min) (-7)))
  ∧ (-7 ≠ 0 → Z.abs (Z.rem (int_min * int_min) (-7)) < Z.abs (-7)
              ∧ int_min ≤ Z.rem (int_min * int_min) (-7) ≤ int_max).
Proof.
  split; [by vm_compute|]. split; [by vm_compute|].
  apply (mul_mod_on_ints int_min int_min (-7)); by vm_compute.
Defined.

(** 5 is the inverse of 3 modulo 7. *)
Lemma inv_mod_correct_example :
  0 < 3 ≤ int_max ∧ 0 < 7 ≤ int_max ∧ (Z.to_nat 3 ≤ 3)%nat
  ∧ ∃ a, inv_mod 3 3 7 = Returns a
         ∧ 0 ≤ a < 7 ∧ (a * 3) mod 7 = Z.gcd 3 7 mod 7.
Proof.
  split; [by vm_compute|]. split; [by vm_compute|]. split; [lia|].
  apply (inv_mod_correct 3 3 7); [by vm_compute | by vm_compute | lia].
Defined.

Lemma inv_mod_zero_example :
  0 < 3 ≤ int_max
  ∧ inv_mod 5 0 7 = Faults ∧ inv_mod 5 3 0 = Faults.
Proof.
  assert (0 < 3 ≤ int_max) as H3 by (by vm_compute).
  split; [exact H3|].
  destruct (inv_mod_zero 4) as [Hx Hy].
  split; [apply (Hx 7) | apply (Hy 3 H3)].
Defined.

(** 3^5 = 243 = 5 modulo 7. *)
Lemma pow_mod_correct_example :
  0 ≤ 3 ≤ int_max ∧ 0 < 7 ≤ int_max ∧ 0 ≤ 5
  ∧ (Z.to_nat (Z.log2 5) < 3)%nat
  ∧ pow_mod 3 3 5 7 = Returns (if decide (5 = 0) then 1 else (3 ^ 5) mod 7).
Proof.
  split; [by vm_compute|]. split; [by vm_compute|]. split; [lia|].
  split; [vm_compute; lia|].
  apply (pow_mod_correct 3 3 5 7);
    [by vm_compute | by vm_compute | lia | vm_compute; lia].
Defined.

Lemma pow_mod_negative_exponent_example :
  int_min ≤ 3 ≤ int_max ∧ int_min ≤ 7 ≤ int_max ∧ 7 ≠ 0 ∧ -1 < 0
  ∧ pow_mod 100 3 (-1) 7 = Unfinished.
Proof.
  split; [by vm_compute|]. split; [by vm_compute|]. split; [lia|].
  split; [lia|].
  apply (pow_mod_negative_exponent 100 3 (-1) 7);
    [by vm_compute | by vm_compute | lia | lia].
Defined.

Lemma is_prime_spec_example :
  is_int_sqrt Z.sqrt ∧ 0 ≤ 9 ≤ int_max
  ∧ ∃ b, is_prime Z.sqrt 9 = Returns b
         ∧ (b = 0 ∨ b = 1)
         ∧ (b = 1 ↔ 9 = 1 ∨ (2 < 9 ∧ prime 9)).
Proof.
  split; [apply Z_sqrt_is_int_sqrt|]. split; [by vm_compute|].
  apply (is_prime_spec Z.sqrt 9); [apply Z_sqrt_is_int_sqrt | by vm_compute].
Defined.

(** The prime after 7 is 11; 13 is a prime above 7. *)
Lemma next_prime_spec_example :
  is_int_sqrt Z.sqrt ∧ 1 ≤ 7 ∧ 7 < 13 ≤ int_max ∧ 2 < 13 ∧ prime 13
  ∧ (Z.to_nat (13 - 7) ≤ 6)%nat
  ∧ ∃ p, next_prime Z.sqrt 6 7 = Returns p
         ∧ 7 < p ≤ 13 ∧ 2 < p ∧ prime p
         ∧ ∀ k, 7 < k < p → 2 < k → ¬ prime k.
Proof.
  assert (prime 13) as H13.
  { destruct (is_prime_result Z.sqrt 13 Z_sqrt_is_int_sqrt)
      as (b & Hb & _ & Hb1); [by vm_compute|].
    assert (is_prime Z.sqrt 13 = Returns 1) as Hrun by reflexivity.
    rewrite Hrun in Hb. injection Hb as <-.
    destruct Hb1 as [Hb1 _]. destruct (Hb1 eq_refl) as [?|[_ ?]]; [lia|done]. }
  split; [apply Z_sqrt_is_int_sqrt|]. split; [lia|].
  split; [by vm_compute|]. split; [lia|]. split; [exact H13|].
  split; [lia|].
  apply (next_prime_spec Z.sqrt 6 7 13);
    [apply Z_sqrt_is_int_sqrt | lia | by vm_compute | lia | exact H13 | lia].
Defined.

Lemma next_prime_returns_example :
  is_int_sqrt Z.sqrt ∧ 1 ≤ int_max - 2 < int_max
  ∧ (Z.to_nat (int_max - (int_max - 2)) ≤ 2)%nat
  ∧ (∃ p, next_prime Z.sqrt 2 (int_max - 2) = Returns p
          ∧ int_max - 2 < p ≤ int_max ∧ 2 < p ∧ prime p
          ∧ ∀ k, int_max - 2 < k < p → 2 < k → ¬ prime k)
  ∧ next_prime Z.sqrt 3 int_max = Faults.
Proof.
  split; [apply Z_sqrt_is_int_sqrt|]. split; [by vm_compute|].
  split; [vm_compute; lia|].
  apply (next_prime_returns Z.sqrt 2 (int_max - 2));
    [apply Z_sqrt_is_int_sqrt | by vm_compute | vm_compute; lia].
Defined.

(** ** The digit computation *)

(** With exact arithmetic in the place of the [double]s the computation
    gives the first digits of pi after the point. *)
Lemma computePiDigit_first_digits :
  Digit.computePiDigit exact_ops Z.sqrt 200 <$> [1; 2; 3]
  = [Returns 1; Returns 4; Returns 1].
Proof. by vm_compute. Qed.

